(** * SmartArt widgets: layout geometry, node store and interaction state

    A shallow embedding of [src/components/CycleSmartArt.tsx] and
    [src/components/ListSmartArt.tsx].

    Conventions of the embedding:
    - a JavaScript number that holds a coordinate or an angle is a real
      number ([R]); rounding of IEEE doubles is not modelled, so a
      property that the code has "within floating-point tolerance" is
      exact here;
    - a JavaScript number that holds an index or a length is an integer
      ([Z]);
    - a node id is an integer-valued IEEE double, modelled as the integer
      it denotes ([Z]); [===] and [Math.max] are exact on doubles, and the
      [+] of the id arithmetic rounds to the nearest double as the code
      does ([Js.add]);
    - a React state cell is a field of a state record and [setX v] is a
      functional update of that field; a handler is a function from the
      state at the time it runs to the next state;
    - [alert] appends to a log of user-visible messages. *)

From Stdlib Require Import String ZArith List Bool Lia Reals Lra Permutation.
From Stdlib Require Import DecimalString.
From Stdlib Require PrimFloat.
Import ListNotations.
Open Scope list_scope.

Set Implicit Arguments.

(* ------------------------------------------------------------------ *)
(** * Array helpers shared by both components *)

Module Js.

(** [Array.prototype.splice(start, 0, x)] on a copy of [xs]: a negative
    [start] counts from the end and is clamped at 0; a [start] beyond
    the length is clamped at the length. *)
Definition splice_start (len start : Z) : Z :=
  if (start <? 0)%Z then Z.max (len + start) 0 else Z.min start len.

Definition splice_insert {A : Type} (xs : list A) (start : Z) (x : A)
  : list A :=
  let s := Z.to_nat (splice_start (Z.of_nat (length xs)) start) in
  firstn s xs ++ x :: skipn s xs.

(** [xs.findIndex(p)]; [None] stands for the result [-1]. *)
Fixpoint findIndex {A : Type} (p : A -> bool) (xs : list A) : option nat :=
  match xs with
  | [] => None
  | x :: rest =>
      if p x then Some 0%nat
      else match findIndex p rest with
           | Some i => Some (S i)
           | None => None
           end
  end.

(** [xs[i] = v] for an index inside the array. *)
Fixpoint set_nth {A : Type} (i : nat) (v : A) (xs : list A) : list A :=
  match xs, i with
  | [], _ => []
  | _ :: rest, O => v :: rest
  | x :: rest, S j => x :: set_nth j v rest
  end.

(** [[xs[i], xs[j]] = [xs[j], xs[i]]] for two indices inside the array:
    the right-hand side is read first, then [xs[i]] and [xs[j]] are
    written in that order. *)
Definition swap {A : Type} (i j : nat) (xs : list A) : list A :=
  match nth_error xs j, nth_error xs i with
  | Some b, Some a => set_nth j a (set_nth i b xs)
  | _, _ => xs
  end.

(** [Math.max(...xs, 0)]. *)
Definition max_with_zero (xs : list Z) : Z := fold_right Z.max 0%Z xs.

(** [Math.max(...xs)] on a non-empty argument list [x :: xs]. *)
Definition max_of (x : Z) (xs : list Z) : Z := fold_left Z.max xs x.

(** 2^53, that is [Number.MAX_SAFE_INTEGER + 1]. *)
Definition twoTo53 : Z := 9007199254740992.

(** [Number.isSafeInteger(z)] for an integer [z]. *)
Definition safeInteger (z : Z) : Prop := (- twoTo53 < z < twoTo53)%Z.

(** The double nearest to the integer [z], ties going to the even
    significand, which is how [+] rounds. Every integer below 2^53 in
    magnitude is a double. From 2^53 on a double has 53 significant
    bits: with [2^e <= |z| < 2^(e+1)] the doubles around [z] are the
    multiples of [ulp = 2^(e-52)]. (A magnitude from [2^1024 - 2^970]
    on would give [Infinity]; no double plus one gets there.) *)
Definition roundToDouble (z : Z) : Z :=
  let a := Z.abs z in
  if (a <? twoTo53)%Z then z
  else
    let ulp := (2 ^ (Z.log2 a - 52))%Z in
    let q := (a / ulp)%Z in
    let r := (a mod ulp)%Z in
    let q' :=
      if (2 * r <? ulp)%Z then q
      else if (ulp <? 2 * r)%Z then (q + 1)%Z
      else if Z.even q then q else (q + 1)%Z in
    (Z.sgn z * (q' * ulp))%Z.

(** [a + b] on integer-valued doubles. *)
Definition add (a b : Z) : Z := roundToDouble (a + b).

(** The primitive double that an integer denotes, built by doubling; the
    conversion is exact on the integers that are doubles. It serves to
    compare [add] with the addition of the machine's doubles. *)
Fixpoint doubleOfPositive (p : positive) : PrimFloat.float :=
  match p with
  | xH => PrimFloat.one
  | xO q => PrimFloat.mul PrimFloat.two (doubleOfPositive q)
  | xI q =>
      PrimFloat.add (PrimFloat.mul PrimFloat.two (doubleOfPositive q))
        PrimFloat.one
  end.

Definition doubleOf (z : Z) : PrimFloat.float :=
  match z with
  | Z0 => PrimFloat.zero
  | Zpos p => doubleOfPositive p
  | Zneg p => PrimFloat.opp (doubleOfPositive p)
  end.

(** [z + 1] computed by [add] and by the machine agree. *)
Definition addsOneAsDouble (z : Z) : bool :=
  PrimFloat.eqb (PrimFloat.add (doubleOf z) PrimFloat.one)
    (doubleOf (add z 1)).

End Js.

(* ------------------------------------------------------------------ *)
(** * The cycle (radial) layout: CycleSmartArt.tsx *)

Module Cycle.

Local Open Scope R_scope.

Record CycleNode : Type := mkCycleNode {
  id : Z;
  title : string;
  description : string
}.

Record Point : Type := mkPoint { px : R; py : R }.

Inductive Position : Type :=
| right | bottom_right | bottom | bottom_left
| left | top_left | top | top_right.

Record NodePosition : Type := mkNodePosition {
  x : R; y : R; textX : R; textY : R; position : Position
}.

Definition centerX : R := 400.
Definition centerY : R := 400.
Definition defaultRadius : R := 250.

(** The remainder operator [%] on numbers: the result has the sign of
    the dividend ([a - b * trunc (a / b)]). *)
Definition trunc (r : R) : Z :=
  if Rle_dec 0 r then Int_part r else (- Int_part (- r))%Z.

Definition js_rem (a b : R) : R := a - b * IZR (trunc (a / b)).

Definition toRadians (deg : R) : R := (deg * PI) / 180.

(** [90 - (index * (360 / total))] *)
Definition angleInDegrees (index total : Z) : R :=
  90 - (IZR index * (360 / IZR total)).

Definition normalize (deg : R) : R := js_rem (js_rem deg 360 + 360) 360.

Definition Rgeb (a b : R) : bool := if Rge_dec a b then true else false.
Definition Rltb (a b : R) : bool := if Rlt_dec a b then true else false.
Definition Rgtb (a b : R) : bool := if Rgt_dec a b then true else false.

Definition positionOf (normalizedAngle : R) : Position :=
  if Rgeb normalizedAngle 337.5 || Rltb normalizedAngle 22.5 then right
  else if Rgeb normalizedAngle 22.5 && Rltb normalizedAngle 67.5
  then bottom_right
  else if Rgeb normalizedAngle 67.5 && Rltb normalizedAngle 112.5
  then bottom
  else if Rgeb normalizedAngle 112.5 && Rltb normalizedAngle 157.5
  then bottom_left
  else if Rgeb normalizedAngle 157.5 && Rltb normalizedAngle 202.5
  then left
  else if Rgeb normalizedAngle 202.5 && Rltb normalizedAngle 247.5
  then top_left
  else if Rgeb normalizedAngle 247.5 && Rltb normalizedAngle 292.5
  then top
  else top_right.

Definition calculateNodePosition (index total : Z) (radius : R)
  : NodePosition :=
  let angleInRadians := toRadians (angleInDegrees index total) in
  let x := centerX + radius * cos angleInRadians in
  let y := centerY - radius * sin angleInRadians in
  let position := positionOf (normalize (angleInDegrees index total)) in
  let contentOffsetX := 30 * cos angleInRadians in
  let contentOffsetY := -30 * sin angleInRadians in
  mkNodePosition x y (x + contentOffsetX) (y + contentOffsetY) position.

(** The value of the local variable [midAngle] of
    [calculateAddButtonPosition] when the function reaches
    [midAngleRad], that is once [total > 1]. *)
Definition midAngle (indexBefore total : Z) : R :=
  let angleBefore := 90 - (IZR indexBefore * (360 / IZR total)) in
  let angleAfter :=
    90 - (IZR (Z.rem (indexBefore + 1) total) * (360 / IZR total)) in
  let midAngle :=
    if Rgtb (Rabs (angleBefore - angleAfter)) 180 then
      let adjustedAngleBefore :=
        if Rltb angleBefore 0 then angleBefore + 360 else angleBefore in
      let adjustedAngleAfter :=
        if Rltb angleAfter 0 then angleAfter + 360 else angleAfter in
      let midAngle := (adjustedAngleBefore + adjustedAngleAfter + 360) / 2 in
      if Rgeb midAngle 360 then midAngle - 360 else midAngle
    else (angleBefore + angleAfter) / 2 in
  if (indexBefore =? total - 1)%Z then
    let midAngle := (angleBefore + 360 + angleAfter) / 2 in
    if Rgeb midAngle 360 then midAngle - 360 else midAngle
  else midAngle.

Definition calculateAddButtonPosition (indexBefore total : Z) (radius : R)
  : Point :=
  if (total <=? 1)%Z then mkPoint 0 0
  else
    let midAngleRad := toRadians (midAngle indexBefore total) in
    mkPoint (centerX + radius * cos midAngleRad)
            (centerY - radius * sin midAngleRad).

(** Euclidean distance of the point [(a, b)] from the center of the
    container. *)
Definition distFromCenter (a b : R) : R :=
  sqrt ((a - centerX) * (a - centerX) + (b - centerY) * (b - centerY)).

(** [handleAddNode]: the new sequence handed to [onNodesChange] or
    [setInternalNodes]. *)
Definition newId (nodes : list CycleNode) : Z :=
  Js.add (Js.max_with_zero (map id nodes)) 1.

Definition newNode (nodes : list CycleNode) : CycleNode :=
  mkCycleNode (newId nodes) "New Step" "Add details here".

Definition handleAddNode (nodes : list CycleNode) (indexToInsertAfter : Z)
  : list CycleNode :=
  Js.splice_insert nodes (indexToInsertAfter + 1) (newNode nodes).

(** The [text-align] that [NodeContent] derives from [$position]. *)
Inductive TextAlign : Type := AlignRight | AlignLeft | AlignCenter.

Definition textAlign (position : Position) : TextAlign :=
  match position with
  | left | top_left | bottom_left => AlignRight
  | right | top_right | bottom_right => AlignLeft
  | _ => AlignCenter
  end.

(** The add buttons of the render,
    [nodes.length > 0 && nodes.map((_, index) => ...)]: the point of
    [calculateAddButtonPosition(index, nodes.length)] and the index that
    [onClick] passes to [handleAddNode]. *)
Definition renderAddButtons (nodes : list CycleNode) : list (Point * Z) :=
  if (0 <? Z.of_nat (length nodes))%Z then
    map (fun index =>
           (calculateAddButtonPosition (Z.of_nat index)
              (Z.of_nat (length nodes)) defaultRadius,
            Z.of_nat index))
        (seq 0 (length nodes))
  else [].

End Cycle.

(* ------------------------------------------------------------------ *)
(** * The horizontal list: ListSmartArt.tsx *)

Module ListArt.

Local Open Scope string_scope.
Local Open Scope Z_scope.

Record Node : Type := mkNode {
  id : Z;
  title : string;
  body : string;
  image : string
}.

Record DOMRect : Type := mkDOMRect {
  rectLeft : R; rectTop : R; rectWidth : R; rectHeight : R
}.

(** The state cells of the component ([useState]) and the log of the
    messages shown with [alert], oldest first. *)
Record State : Type := mkState {
  nodes : list Node;
  hoveredNode : option Z;
  pressedNode : option Z;
  editingTitle : option Z;
  editingBody : option Z;
  containerActive : bool;
  containerHovered : bool;
  insertPictureMenuOpen : option Z;
  buttonRect : option DOMRect;
  generatingImageForNode : option Z;
  alerts : list string
}.

Definition setNodes (v : list Node) (s : State) : State :=
  mkState v (hoveredNode s) (pressedNode s) (editingTitle s)
    (editingBody s) (containerActive s) (containerHovered s)
    (insertPictureMenuOpen s) (buttonRect s) (generatingImageForNode s)
    (alerts s).

Definition setHoveredNode (v : option Z) (s : State) : State :=
  mkState (nodes s) v (pressedNode s) (editingTitle s)
    (editingBody s) (containerActive s) (containerHovered s)
    (insertPictureMenuOpen s) (buttonRect s) (generatingImageForNode s)
    (alerts s).

Definition setPressedNode (v : option Z) (s : State) : State :=
  mkState (nodes s) (hoveredNode s) v (editingTitle s)
    (editingBody s) (containerActive s) (containerHovered s)
    (insertPictureMenuOpen s) (buttonRect s) (generatingImageForNode s)
    (alerts s).

Definition setEditingTitle (v : option Z) (s : State) : State :=
  mkState (nodes s) (hoveredNode s) (pressedNode s) v
    (editingBody s) (containerActive s) (containerHovered s)
    (insertPictureMenuOpen s) (buttonRect s) (generatingImageForNode s)
    (alerts s).

Definition setEditingBody (v : option Z) (s : State) : State :=
  mkState (nodes s) (hoveredNode s) (pressedNode s) (editingTitle s)
    v (containerActive s) (containerHovered s)
    (insertPictureMenuOpen s) (buttonRect s) (generatingImageForNode s)
    (alerts s).

Definition setContainerActive (v : bool) (s : State) : State :=
  mkState (nodes s) (hoveredNode s) (pressedNode s) (editingTitle s)
    (editingBody s) v (containerHovered s)
    (insertPictureMenuOpen s) (buttonRect s) (generatingImageForNode s)
    (alerts s).

Definition setInsertPictureMenuOpen (v : option Z) (s : State) : State :=
  mkState (nodes s) (hoveredNode s) (pressedNode s) (editingTitle s)
    (editingBody s) (containerActive s) (containerHovered s)
    v (buttonRect s) (generatingImageForNode s)
    (alerts s).

Definition setButtonRect (v : option DOMRect) (s : State) : State :=
  mkState (nodes s) (hoveredNode s) (pressedNode s) (editingTitle s)
    (editingBody s) (containerActive s) (containerHovered s)
    (insertPictureMenuOpen s) v (generatingImageForNode s)
    (alerts s).

Definition setGeneratingImageForNode (v : option Z) (s : State) : State :=
  mkState (nodes s) (hoveredNode s) (pressedNode s) (editingTitle s)
    (editingBody s) (containerActive s) (containerHovered s)
    (insertPictureMenuOpen s) (buttonRect s) v
    (alerts s).

Definition alert (msg : string) (s : State) : State :=
  mkState (nodes s) (hoveredNode s) (pressedNode s) (editingTitle s)
    (editingBody s) (containerActive s) (containerHovered s)
    (insertPictureMenuOpen s) (buttonRect s) (generatingImageForNode s)
    (alerts s ++ [msg]).

(** [useState(initialNodes)] and the other initial values. *)
Definition initialState (initialNodes : list Node) : State :=
  mkState initialNodes None None None None false false None None None [].

(** Statements of a handler run top to bottom: [s |> f |> g] is [f]
    followed by [g]. *)
Notation "s |> f" := (f s) (at level 45, left associativity, only parsing).

(** ** Outside click *)

(** What [handleClickOutside] reads from the event target:
    [target.closest('[data-insert-button]') !== null],
    [menuRef.current && menuRef.current.contains(target)] and
    [containerRef.current && !containerRef.current.contains(target)]. *)
Record ClickTarget : Type := mkClickTarget {
  isClickOnButton : bool;
  isClickOnMenu : bool;
  outsideContainer : bool
}.

Definition handleClickOutside (s : State) (target : ClickTarget) : State :=
  match insertPictureMenuOpen s with
  | Some _ =>
      if negb (isClickOnButton target) && negb (isClickOnMenu target)
      then s |> setInsertPictureMenuOpen None |> setButtonRect None
      else s
  | None =>
      if outsideContainer target
      then s |> setPressedNode None |> setEditingTitle None
             |> setEditingBody None |> setContainerActive false
             |> setHoveredNode None
      else s
  end.

(** ** Insert *)

Definition defaultImage : string :=
  "https://images.unsplash.com/photo-1441974231531-c6227db76b6e?ixlib=rb-4.0.3&ixid=M3wxMjA3fDB8MHxwaG90by1wYWdlfHx8fGVufDB8fHx8fA%3D%3D&auto=format&fit=crop&w=300&q=80".

(** [nodes.length > 0 ? Math.max(...nodes.map(n => n.id)) + 1 : 1] *)
Definition newId (ns : list Node) : Z :=
  match map id ns with
  | [] => 1
  | i :: rest => Js.add (Js.max_of i rest) 1
  end.

Definition newNode (ns : list Node) : Node :=
  mkNode (newId ns) "Heading 4" "Description" defaultImage.

Definition handleAddClick (s : State) (position : Z) : State :=
  let newId := newId (nodes s) in
  let newNodes := Js.splice_insert (nodes s) position (newNode (nodes s)) in
  s |> setNodes newNodes
    |> setPressedNode (Some newId)
    |> setEditingTitle (Some newId)
    |> setEditingBody None
    |> setContainerActive false.

(** ** Text fields *)

Definition withTitle (n : Node) (v : string) : Node :=
  mkNode (id n) v (body n) (image n).
Definition withBody (n : Node) (v : string) : Node :=
  mkNode (id n) (title n) v (image n).
Definition withImage (n : Node) (v : string) : Node :=
  mkNode (id n) (title n) (body n) v.

Definition handleTitleChange (s : State) (nodeId : Z) (newTitle : string)
  : State :=
  s |> setNodes
         (map (fun node => if id node =? nodeId then withTitle node newTitle
                           else node) (nodes s)).

Definition handleBodyChange (s : State) (nodeId : Z) (newBody : string)
  : State :=
  s |> setNodes
         (map (fun node => if id node =? nodeId then withBody node newBody
                           else node) (nodes s)).

(** The functional update [prevNodes => prevNodes.map(node =>
    node.id === nodeId ? { ...node, image: url } : node)]. *)
Definition setImageOf (nodeId : Z) (url : string) (prevNodes : list Node)
  : list Node :=
  map (fun node => if id node =? nodeId then withImage node url else node)
      prevNodes.

(** ** Image acquisition *)

(** A value caught by [catch (error)]: an [Error] instance with its
    message, or any other value. *)
Inductive Thrown : Type :=
| ErrorObject (message : string)
| OtherValue.

(** The body of a response as [generateImageForTitle] reads it:
    [response.json()] rejects, or gives [data] whose [results] are
    listed by their [urls.regular] (an absent or empty [results] is
    the empty list). *)
Inductive ResponseBody : Type :=
| JsonRejected (e : Thrown)
| JsonResults (regularUrls : list string).

Record Response : Type := mkResponse {
  ok : bool;
  status : Z;
  statusText : string;
  responseBody : ResponseBody
}.

(** What [await fetch(endpoint)] does: it throws, or gives a response.
    The image service is an external collaborator, so the outcome is an
    input of the model; the query string built from the title only
    selects which outcome the service gives. *)
Inductive FetchOutcome : Type :=
| FetchRejected (e : Thrown)
| FetchResponse (r : Response).

Definition emptyResultImage : string :=
  "https://images.unsplash.com/photo-1557682250-33bd709cbe85?w=800&h=600&q=80".

Definition fallbackImage : string :=
  "https://images.unsplash.com/photo-1579546929518-9e396f3cc809?w=800&h=600&q=80".

Definition showNumber (z : Z) : string :=
  NilZero.string_of_int (Z.to_int z).

(** [generateImageForTitle]: [inl e] when the promise rejects with [e],
    [inr url] when it resolves. *)
Definition generateImageForTitle (outcome : FetchOutcome)
  : Thrown + string :=
  match outcome with
  | FetchRejected e => inl e
  | FetchResponse response =>
      if negb (ok response) then
        inl (ErrorObject
               ("Unsplash API error (" ++ showNumber (status response)
                ++ "): " ++ statusText response))
      else
        match responseBody response with
        | JsonRejected e => inl e
        | JsonResults (imageUrl :: _) => inr imageUrl
        | JsonResults [] => inr emptyResultImage
        end
  end.

(** [handlePictureSourceSelect], synchronous part: the node is looked up
    in the sequence of the render that created the handler; nothing is
    scheduled when it is absent. *)
Definition findNode (nodeId : Z) (ns : list Node) : option Node :=
  find (fun node => id node =? nodeId) ns.

(** The timeout callback up to the [await]: the menu is closed and the
    source dispatched. ['This Device'] opens the file picker and changes
    no state cell ([handleFileSelection] runs when a file is chosen);
    for ['Generate with AI'] the node is marked as generating and the
    request is pending afterwards. *)
Definition pictureSourceSelected (s : State) (targetNodeId : Z)
    (source : string) : State :=
  let s := s |> setInsertPictureMenuOpen None |> setButtonRect None
             |> setHoveredNode None in
  if String.eqb source "This Device" then s
  else if String.eqb source "Stock Images" then
    s |> alert "Stock Images feature would open a library of stock images"
  else if String.eqb source "Generate with AI" then
    s |> setGeneratingImageForNode (Some targetNodeId)
  else s.

Definition errorMessage (error : Thrown) : string :=
  match error with
  | ErrorObject message => message
  | OtherValue => "Unknown error"
  end.

(** The continuation after [await generateImageForTitle(title)], run on
    the state [s] the component has when the promise settles: the [try]
    body on success, the [catch] block on failure, then [finally]. *)
Definition generateSettled (s : State) (targetNodeId : Z)
    (result : Thrown + string) : State :=
  match result with
  | inr generatedImageUrl =>
      s |> (fun s => setNodes
                       (setImageOf targetNodeId generatedImageUrl (nodes s))
                       s)
        |> setGeneratingImageForNode None
  | inl error =>
      s |> alert ("Failed to generate image: " ++ errorMessage error
                  ++ ". Please try again.")
        |> (fun s => setNodes
                       (setImageOf targetNodeId fallbackImage (nodes s)) s)
        |> setGeneratingImageForNode None
  end.

(** [handlePictureSourceSelect] up to the [await]: [closureNodes] is the
    sequence of the render that created the handler, [s] the state in
    which the timeout callback runs. *)
Definition handlePictureSourceSelect (closureNodes : list Node)
    (s : State) (nodeId : Z) (source : string) : State :=
  match findNode nodeId closureNodes with
  | None => s
  | Some _ => pictureSourceSelected s nodeId source
  end.

(** The whole "Generate with AI" path for a node that the handler
    found: from the state in which the timeout callback runs to the
    state after the promise settles; [between] is whatever the event
    loop did to the state while the request was pending. *)
Definition generateWithAI (s : State) (targetNodeId : Z)
    (between : State -> State) (outcome : FetchOutcome) : State :=
  generateSettled
    (between (pictureSourceSelected s targetNodeId "Generate with AI"))
    targetNodeId (generateImageForTitle outcome).

(** The file chosen in the picker: its MIME type and the URL that
    [URL.createObjectURL] gives for it. *)
Record File : Type := mkFile { fileType : string; objectURL : string }.

(** [handleFileSelection]; [closureNodes] is the sequence of the render
    that created the handler and [file] is
    [fileInputRef.current.files?.[0]] ([None] also when the input is not
    mounted). *)
Definition handleFileSelection (closureNodes : list Node) (s : State)
    (nodeId : Z) (file : option File) : State :=
  match findNode nodeId closureNodes with
  | None => s
  | Some _ =>
      match file with
      | None => s
      | Some file =>
          if negb (String.prefix "image/" (fileType file)) then
            s |> alert "Please select an image file (JPEG, PNG, GIF, etc.)"
          else
            s |> setNodes (setImageOf nodeId (objectURL file) (nodes s))
      end
  end.

(** ** Move and delete *)

Definition indexOfId (nodeId : Z) (ns : list Node) : option nat :=
  Js.findIndex (fun node => id node =? nodeId) ns.

Definition afterMove (nodeId : Z) (newNodes : list Node) (s : State)
  : State :=
  s |> setNodes newNodes
    |> setPressedNode (Some nodeId)
    |> setContainerActive false
    |> setEditingTitle None
    |> setEditingBody None.

Definition handleMoveLeft (s : State) (nodeId : Z) : State :=
  match indexOfId nodeId (nodes s) with
  | Some currentIndex =>
      if (0 <? currentIndex)%nat then
        afterMove nodeId
          (Js.swap currentIndex (currentIndex - 1) (nodes s)) s
      else s
  | None => s
  end.

(** [handleMoveRight]. When [findIndex] gives [-1] on a non-empty
    sequence the guard [-1 < nodes.length - 1] passes and the swap
    stores [undefined] in slot 0: the next render throws on [node.id].
    [None] stands for that crash; a toolbar button only ever passes the
    id of a rendered node. *)
Definition handleMoveRight (s : State) (nodeId : Z) : option State :=
  match indexOfId nodeId (nodes s) with
  | Some currentIndex =>
      if Z.of_nat currentIndex <? Z.of_nat (length (nodes s)) - 1 then
        Some (afterMove nodeId
                (Js.swap currentIndex (currentIndex + 1) (nodes s)) s)
      else Some s
  | None =>
      if -1 <? Z.of_nat (length (nodes s)) - 1 then None else Some s
  end.

Definition handleDeleteNode (s : State) (nodeId : Z) : State :=
  if Z.of_nat (length (nodes s)) <=? 1 then s
  else
    let newNodes := filter (fun node => negb (id node =? nodeId)) (nodes s) in
    s |> setNodes newNodes
      |> setPressedNode None
      |> setEditingTitle None
      |> setEditingBody None.

(** ** Layout of the row and of the insertion buttons *)

(** The [width] of [SmartArtContainer], in pixels. *)
Definition containerWidth (nodeCountProp : Z) : Z :=
  let nodeCount := if nodeCountProp =? 0 then 1 else nodeCountProp in
  let nodeWidth := 200 in
  let nodeGap := 24 in
  let padding := 40 in
  (nodeCount * nodeWidth) + ((nodeCount - 1) * nodeGap) + padding.

(** The horizontal anchor of an [AddButton]: [left: n px], or
    [right: n px] with [left: auto]. *)
Inductive Anchor : Type :=
| LeftPx (px : Z)
| RightPx (px : Z).

Record AddButton : Type := mkAddButton {
  anchor : Anchor;
  clickPosition : Z   (* the argument of [handleAddClick] *)
}.

(** [leftPos] of the between-column button of index [idx]; the half
    gap [24 / 2] is the integer 12. *)
Definition leftPos (idx : Z) : Z :=
  let nodeWidth := 200 in
  let nodeGap := 24 in
  let position := idx + 1 in
  let containerPadding := 20 in
  containerPadding + (position * nodeWidth) + ((position - 1) * nodeGap)
  + (nodeGap / 2) + 6.

Definition isNone {A : Type} (o : option A) : bool :=
  match o with None => true | Some _ => false end.

Definition leftEdgeButton (s : State) : list AddButton :=
  if containerHovered s && isNone (pressedNode s)
  then [mkAddButton (LeftPx (-12)) 0]
  else [].

Definition betweenButtons (s : State) : list AddButton :=
  if containerHovered s && isNone (pressedNode s)
     && (1 <? Z.of_nat (length (nodes s)))
  then map (fun idx => mkAddButton (LeftPx (leftPos (Z.of_nat idx)))
                                   (Z.of_nat idx + 1))
           (seq 0 (length (nodes s) - 1))
  else [].

Definition rightEdgeButton (s : State) : list AddButton :=
  if containerHovered s && isNone (pressedNode s)
  then [mkAddButton (RightPx (-12)) (Z.of_nat (length (nodes s)))]
  else [].

Definition addButtons (s : State) : list AddButton :=
  leftEdgeButton s ++ betweenButtons s ++ rightEdgeButton s.

(** ** Selection, editing and the image-source menu *)

Definition setContainerHovered (v : bool) (s : State) : State :=
  mkState (nodes s) (hoveredNode s) (pressedNode s) (editingTitle s)
    (editingBody s) (containerActive s) v
    (insertPictureMenuOpen s) (buttonRect s) (generatingImageForNode s)
    (alerts s).

(** [cell === nodeId] for a state cell of type [number | null]. *)
Definition isNode (cell : option Z) (nodeId : Z) : bool :=
  match cell with
  | Some n => n =? nodeId
  | None => false
  end.

(** [handleContainerClick]; [onEmptySpace] is
    [event.target === event.currentTarget]. *)
Definition handleContainerClick (s : State) (onEmptySpace : bool) : State :=
  if onEmptySpace
  then s |> setContainerActive true |> setPressedNode None
         |> setEditingTitle None |> setEditingBody None
  else s.

Definition handleNodeClick (s : State) (nodeId : Z) : State :=
  s |> setPressedNode
         (if isNode (pressedNode s) nodeId then None else Some nodeId)
    |> setContainerActive false.

Definition handleTitleClick (s : State) (nodeId : Z) : State :=
  s |> setPressedNode (Some nodeId)
    |> setEditingTitle (Some nodeId)
    |> setEditingBody None
    |> setContainerActive false.

Definition handleBodyClick (s : State) (nodeId : Z) : State :=
  s |> setPressedNode (Some nodeId)
    |> setEditingBody (Some nodeId)
    |> setEditingTitle None
    |> setContainerActive false.

(** The rectangle that [handleInsertPictureClick] stores: the one of the
    button when [getBoundingClientRect] gave it, else a point 100 px
    inside the container, else the origin. *)
Definition storedRect (buttonRectNow containerRectNow : option DOMRect)
  : DOMRect :=
  match buttonRectNow with
  | Some rect => rect
  | None =>
      match containerRectNow with
      | Some containerRect =>
          mkDOMRect (rectLeft containerRect + 100)
                    (rectTop containerRect + 100) 0 0
      | None => mkDOMRect 0 0 0 0
      end
  end.

(** The timeout callback of [handleInsertPictureClick]. *)
Definition insertPictureTimeout (isOpening : bool) (rect : DOMRect)
    (s : State) (nodeId : Z) : State :=
  if isOpening then
    s |> setButtonRect (Some rect)
      |> setHoveredNode (Some nodeId)
      |> setPressedNode None
      |> setEditingTitle None
      |> setEditingBody None
      |> setContainerActive false
      |> setInsertPictureMenuOpen (Some nodeId)
  else
    s |> setButtonRect None |> setInsertPictureMenuOpen None.

(** [handleInsertPictureClick]: [isOpening] and the rectangle are taken at
    the click, the state cells are set by a timeout of 0 ms, which runs
    on the state of the click. *)
Definition handleInsertPictureClick (s : State) (nodeId : Z)
    (buttonRectNow containerRectNow : option DOMRect) : State :=
  let isOpening := negb (isNode (insertPictureMenuOpen s) nodeId) in
  insertPictureTimeout isOpening
    (storedRect buttonRectNow containerRectNow) s nodeId.

(** [onClick] of the backdrop that [renderImageMenu] puts behind the
    menu. *)
Definition backdropClick (s : State) : State :=
  s |> setInsertPictureMenuOpen None |> setButtonRect None.

Definition mouseHandlersDisabled (s : State) : bool :=
  negb (isNone (insertPictureMenuOpen s)).

(** ** What the render shows for a node *)

(** [$show] of the node's [FloatingToolbar] (move left, move right,
    delete). *)
Definition showToolbar (s : State) (nodeId : Z) : bool :=
  isNode (pressedNode s) nodeId.

(** [$show] of the node's [InsertPictureOverlay]. *)
Definition showInsertOverlay (s : State) (nodeId : Z) : bool :=
  (isNode (hoveredNode s) nodeId && negb (isNode (pressedNode s) nodeId))
  || isNode (insertPictureMenuOpen s) nodeId.

(** The node's [LoadingOverlay] is rendered. *)
Definition showLoading (s : State) (nodeId : Z) : bool :=
  isNode (generatingImageForNode s) nodeId.

End ListArt.

(* ------------------------------------------------------------------ *)
(** * Sequences of mutations of the node store *)

Module Trace.

Import ListArt.

(** The mutations of the list component: insert, delete, move, text
    field update and the three ways an image is replaced. *)
Inductive Op : Type :=
| Insert (position : Z)
| Delete (nodeId : Z)
| MoveLeft (nodeId : Z)
| MoveRight (nodeId : Z)
| TitleChange (nodeId : Z) (newTitle : string)
| BodyChange (nodeId : Z) (newBody : string)
| FileSelected (closureNodes : list Node) (nodeId : Z) (file : option File)
| GenerateSettled (targetNodeId : Z) (outcome : FetchOutcome).

Definition apply (s : State) (op : Op) : option State :=
  match op with
  | Insert position => Some (handleAddClick s position)
  | Delete nodeId => Some (handleDeleteNode s nodeId)
  | MoveLeft nodeId => Some (handleMoveLeft s nodeId)
  | MoveRight nodeId => handleMoveRight s nodeId
  | TitleChange nodeId newTitle => Some (handleTitleChange s nodeId newTitle)
  | BodyChange nodeId newBody => Some (handleBodyChange s nodeId newBody)
  | FileSelected closureNodes nodeId file =>
      Some (handleFileSelection closureNodes s nodeId file)
  | GenerateSettled targetNodeId outcome =>
      Some (generateSettled s targetNodeId (generateImageForTitle outcome))
  end.

Fixpoint run (ops : list Op) (s : State) : option State :=
  match ops with
  | [] => Some s
  | op :: rest =>
      match apply s op with
      | Some s' => run rest s'
      | None => None
      end
  end.

(** An operation aims at a node of the sequence, as every operation
    that a rendered node's toolbar issues does. *)
Definition targetsExisting (s : State) (op : Op) : Prop :=
  match op with
  | MoveRight nodeId => In nodeId (map id (nodes s))
  | _ => True
  end.

Fixpoint wellTargeted (ops : list Op) (s : State) : Prop :=
  match ops with
  | [] => True
  | op :: rest =>
      targetsExisting s op
      /\ forall s', apply s op = Some s' -> wellTargeted rest s'
  end.

(** The number of inserts of a sequence of operations. *)
Definition insertCost (op : Op) : Z :=
  match op with
  | Insert _ => 1%Z
  | _ => 0%Z
  end.

Fixpoint countInserts (ops : list Op) : Z :=
  match ops with
  | [] => 0%Z
  | op :: rest => (insertCost op + countInserts rest)%Z
  end.

(** The cycle component only inserts. *)
Definition runCycle (inserts : list Z) (ns : list Cycle.CycleNode)
  : list Cycle.CycleNode :=
  fold_left Cycle.handleAddNode inserts ns.

End Trace.

(* ------------------------------------------------------------------ *)
(** * The events of the list component *)

Module Ui.

Import ListArt.

(** Every handler that the render attaches, with what it reads from the
    event. *)
Inductive Event : Type :=
| ContainerClick (onEmptySpace : bool)
| ContainerEnter
| ContainerLeave
| ImageEnter (nodeId : Z)
| ImageLeave
| NodeClick (nodeId : Z)
| TitleClick (nodeId : Z)
| BodyClick (nodeId : Z)
| InsertPictureClick (nodeId : Z)
    (buttonRectNow containerRectNow : option DOMRect)
| BackdropClick
| MouseDown (target : ClickTarget)
| PictureSource (closureNodes : list Node) (nodeId : Z) (source : string)
| Mutation (op : Trace.Op).

(** The container and image handlers are [undefined] while
    [mouseHandlersDisabled]. *)
Definition dispatch (s : State) (e : Event) : option State :=
  match e with
  | ContainerClick onEmptySpace =>
      Some (if mouseHandlersDisabled s then s
            else handleContainerClick s onEmptySpace)
  | ContainerEnter =>
      Some (if mouseHandlersDisabled s then s
            else setContainerHovered true s)
  | ContainerLeave =>
      Some (if mouseHandlersDisabled s then s
            else setContainerHovered false s)
  | ImageEnter nodeId =>
      Some (if mouseHandlersDisabled s then s
            else setHoveredNode (Some nodeId) s)
  | ImageLeave =>
      Some (if mouseHandlersDisabled s then s else setHoveredNode None s)
  | NodeClick nodeId => Some (handleNodeClick s nodeId)
  | TitleClick nodeId => Some (handleTitleClick s nodeId)
  | BodyClick nodeId => Some (handleBodyClick s nodeId)
  | InsertPictureClick nodeId buttonRectNow containerRectNow =>
      Some (handleInsertPictureClick s nodeId buttonRectNow containerRectNow)
  | BackdropClick => Some (backdropClick s)
  | MouseDown target => Some (handleClickOutside s target)
  | PictureSource closureNodes nodeId source =>
      Some (handlePictureSourceSelect closureNodes s nodeId source)
  | Mutation op => Trace.apply s op
  end.

Fixpoint run (events : list Event) (s : State) : option State :=
  match events with
  | [] => Some s
  | e :: rest =>
      match dispatch s e with
      | Some s' => run rest s'
      | None => None
      end
  end.

(** The exclusions that the handlers keep between the selection cells:
    the title and the body are never edited at the same time, and while
    the container is active no node is pressed or edited. *)
Definition exclusive (s : State) : Prop :=
  (editingTitle s = None \/ editingBody s = None)
  /\ (containerActive s = true ->
      pressedNode s = None /\ editingTitle s = None
      /\ editingBody s = None).

End Ui.

(* ------------------------------------------------------------------ *)
(** * Vocabulary of the statements *)

(** [m] is the greatest element of [ids]. *)
Definition greatest (m : Z) (ids : list Z) : Prop :=
  In m ids /\ Forall (fun i => (i <= m)%Z) ids.

(** [ys] is [xs] with [x] put at index [p]: the elements before [p] keep
    their index, the others move one slot to the right, so the original
    elements keep their relative order. *)
Definition inserted_at {A : Type} (p : nat) (x : A) (xs ys : list A) : Prop :=
  length ys = S (length xs)
  /\ nth_error ys p = Some x
  /\ (forall i, (i < p)%nat -> nth_error ys i = nth_error xs i)
  /\ (forall i, (p <= i)%nat -> nth_error ys (S i) = nth_error xs i).

(** [ys] is [xs] with the elements at the neighbouring indices [i] and
    [i + 1] exchanged, every other element in its place. *)
Definition exchanged_at {A : Type} (i : nat) (xs ys : list A) : Prop :=
  length ys = length xs
  /\ nth_error ys i = nth_error xs (S i)
  /\ nth_error ys (S i) = nth_error xs i
  /\ (forall k, k <> i -> k <> S i -> nth_error ys k = nth_error xs k).

(** Room for [k] more increments: every id is above -2^53 and stays at
    most 2^53, the last integer that adding one reaches exactly, when
    [k] is added to it. *)
Definition headroom (k : Z) (ids : list Z) : Prop :=
  (0 <= k <= Js.twoTo53)%Z
  /\ Forall (fun i => (- Js.twoTo53 < i)%Z /\ (i + k <= Js.twoTo53)%Z) ids.

(** The ids of a list-layout sequence are pairwise distinct. *)
Definition distinctIds (ns : list ListArt.Node) : Prop :=
  NoDup (map ListArt.id ns).

(** The three nodes that [App.tsx] passes to the component, with short
    texts and image references. *)
Definition dogs : ListArt.Node :=
  ListArt.mkNode 1 "Dogs" "Loyal companions" "dogs.png".
Definition cats : ListArt.Node :=
  ListArt.mkNode 2 "Cats" "Curious creatures" "cats.png".
Definition birds : ListArt.Node :=
  ListArt.mkNode 3 "Birds" "Winged creatures" "birds.png".
Definition sample : list ListArt.Node := [dogs; cats; birds].

(** The outcomes of the image request that are an HTTP or a network
    failure: [fetch] rejects, or the response is not [ok]. *)
Definition requestFailed (outcome : ListArt.FetchOutcome) : Prop :=
  match outcome with
  | ListArt.FetchRejected _ => True
  | ListArt.FetchResponse r => ListArt.ok r = false
  end.

(* ------------------------------------------------------------------ *)
(** * Properties of the radial layout *)

Section CircleGeometry.

Import Cycle.
Local Open Scope R_scope.

Lemma on_circle (radius a : R) :
  0 <= radius ->
  distFromCenter (centerX + radius * cos a) (centerY - radius * sin a)
  = radius.
Proof.
  intros Hr. unfold distFromCenter.
  replace ((centerX + radius * cos a - centerX)
           * (centerX + radius * cos a - centerX)
           + (centerY - radius * sin a - centerY)
             * (centerY - radius * sin a - centerY))
    with (radius * radius * (Rsqr (sin a) + Rsqr (cos a)))
    by (unfold Rsqr; ring).
  rewrite sin2_cos2, Rmult_1_r.
  now apply sqrt_square.
Qed.

Lemma IZR_total_pos (total : Z) : (1 <= total)%Z -> 0 < IZR total.
Proof. intros H. apply IZR_lt. lia. Qed.

Lemma Rgeb_false (a b : R) : a < b -> Rgeb a b = false.
Proof. intros H. unfold Rgeb. destruct (Rge_dec a b); [lra | reflexivity]. Qed.

(** The wrap-around pair: the override of [calculateAddButtonPosition]
    gives the angle half a step past node 0. *)
Lemma midAngle_last (total : Z) :
  (2 <= total)%Z ->
  midAngle (total - 1) total = 90 + 180 / IZR total.
Proof.
  intros Ht. unfold midAngle.
  rewrite Z.eqb_refl.
  replace (total - 1 + 1)%Z with total by lia.
  rewrite Z.rem_same by lia.
  assert (Hpos : 0 < IZR total) by (apply IZR_total_pos; lia).
  assert (H2 : 2 <= IZR total) by (apply IZR_le; lia).
  rewrite minus_IZR.
  assert (Hinv : 180 / IZR total <= 90).
  { apply Rmult_le_reg_r with (IZR total); [exact Hpos|].
    unfold Rdiv. rewrite Rmult_assoc, Rinv_l by lra. lra. }
  assert (Hinv0 : 0 < 180 / IZR total).
  { apply Rdiv_lt_0_compat; lra. }
  replace ((90 - (IZR total - 1) * (360 / IZR total) + 360
            + (90 - 0 * (360 / IZR total))) / 2)
    with (90 + 180 / IZR total) by (field; lra).
  rewrite Rgeb_false by lra. reflexivity.
Qed.

End CircleGeometry.

Section CycleLayout.

Import Cycle.
Local Open Scope R_scope.

Lemma Rgtb_false (a b : R) : a <= b -> Rgtb a b = false.
Proof. intros H. unfold Rgtb. destruct (Rgt_dec a b); [lra | reflexivity]. Qed.

(** Between two consecutive nodes that do not wrap around, the button
    sits at the plain average of their angles. *)
Lemma midAngle_inner (total indexBefore : Z) :
  (2 <= total)%Z -> (0 <= indexBefore < total - 1)%Z ->
  midAngle indexBefore total
  = (angleInDegrees indexBefore total
     + angleInDegrees (indexBefore + 1) total) / 2.
Proof.
  intros Ht Hi. unfold midAngle, angleInDegrees.
  replace (indexBefore =? total - 1)%Z with false
    by (symmetry; apply Z.eqb_neq; lia).
  rewrite Z.rem_small by lia.
  assert (Hpos : 0 < IZR total) by (apply IZR_total_pos; lia).
  assert (H2 : 2 <= IZR total) by (apply IZR_le; lia).
  assert (Hstep : 0 < 360 / IZR total <= 180).
  { split; [apply Rdiv_lt_0_compat; lra|].
    apply Rmult_le_reg_r with (IZR total); [exact Hpos|].
    unfold Rdiv. rewrite Rmult_assoc, Rinv_l by lra. lra. }
  rewrite plus_IZR.
  rewrite Rgtb_false; [reflexivity|].
  replace (90 - IZR indexBefore * (360 / IZR total)
           - (90 - (IZR indexBefore + 1) * (360 / IZR total)))
    with (360 / IZR total) by ring.
  rewrite Rabs_pos_eq; lra.
Qed.

(** C1. For [total >= 2] and [0 <= indexBefore < total] the point of
    [calculateAddButtonPosition] is at distance [radius] from the
    center (400, 400). For the wrap-around pair
    [indexBefore = total - 1] the point is the one at an angle [m]
    strictly between the angle of node 0 and the angle of node
    [total - 1] taken one turn further, an arc of at most 180 degrees,
    and [m] is the middle of that arc. *)
Theorem add_button_on_circle (total indexBefore : Z) (radius : R) :
  (2 <= total)%Z -> (0 <= indexBefore < total)%Z -> 0 <= radius ->
  let p := calculateAddButtonPosition indexBefore total radius in
  sqrt ((px p - 400) * (px p - 400) + (py p - 400) * (py p - 400))
  = radius
  /\ (indexBefore = (total - 1)%Z ->
      exists m : R,
        p = mkPoint (400 + radius * cos (m * PI / 180))
                    (400 - radius * sin (m * PI / 180))
        /\ angleInDegrees 0 total < m
           < angleInDegrees (total - 1) total + 360
        /\ angleInDegrees (total - 1) total + 360
           - angleInDegrees 0 total <= 180
        /\ m - angleInDegrees 0 total
           = angleInDegrees (total - 1) total + 360 - m).
Proof.
  intros Ht Hi Hr p. subst p. unfold calculateAddButtonPosition.
  replace (total <=? 1)%Z with false by (symmetry; apply Z.leb_gt; lia).
  cbn [px py]. split.
  - apply (on_circle (toRadians (midAngle indexBefore total)) Hr).
  - intros ->. exists (midAngle (total - 1) total).
    assert (Hpos : 0 < IZR total) by (apply IZR_total_pos; lia).
    assert (H2 : 2 <= IZR total) by (apply IZR_le; lia).
    assert (Hhalf : 0 < 180 / IZR total <= 90).
    { split; [apply Rdiv_lt_0_compat; lra|].
      apply Rmult_le_reg_r with (IZR total); [exact Hpos|].
      unfold Rdiv. rewrite Rmult_assoc, Rinv_l by lra. lra. }
    split; [reflexivity|].
    rewrite midAngle_last by lia.
    unfold angleInDegrees. rewrite minus_IZR.
    replace (90 - (IZR total - 1) * (360 / IZR total) + 360)
      with (90 + 2 * (180 / IZR total)) by (field; lra).
    lra.
Qed.

Lemma add_button_on_circle_witness :
  (2 <= 5)%Z /\ (0 <= 4 < 5)%Z /\ 0 <= 250
  /\ let p := calculateAddButtonPosition 4 5 250 in
     sqrt ((px p - 400) * (px p - 400) + (py p - 400) * (py p - 400))
     = 250.
Proof.
  split; [lia|]. split; [lia|]. split; [lra|].
  apply (@add_button_on_circle 5 4 250); [lia | lia | lra].
Defined.

(** C2, as the code has it. For [total <= 1] the function returns the
    point (0, 0), the top-left corner of the container. *)
Theorem add_button_degenerate (total indexBefore : Z) (radius : R) :
  (total <= 1)%Z ->
  calculateAddButtonPosition indexBefore total radius = mkPoint 0 0.
Proof.
  intros Ht. unfold calculateAddButtonPosition.
  now replace (total <=? 1)%Z with true by (symmetry; apply Z.leb_le; lia).
Qed.

Lemma add_button_degenerate_witness :
  (1 <= 1)%Z /\ calculateAddButtonPosition 0 1 250 = mkPoint 0 0.
Proof.
  split; [lia|]. apply (@add_button_degenerate 1 0 250). lia.
Defined.

(** C2, as stated, fails for one node: the point returned is not the
    center (400, 400) used for node placement. *)
Lemma add_button_degenerate_not_center :
  (1 <= 1)%Z
  /\ calculateAddButtonPosition 0 1 defaultRadius
     <> mkPoint centerX centerY.
Proof.
  split; [lia|]. unfold calculateAddButtonPosition. cbn.
  intros H. injection H as H _. unfold centerX in H. lra.
Qed.

(** C4. For [total >= 1] and [0 <= index < total] the point of
    [calculateNodePosition] is the point of the circle at the angle
    [90 - index * (360 / total)] degrees, with the sine subtracted
    (the y axis of the screen points down), and its distance from the
    center (400, 400) is [radius]. *)
Theorem node_on_circle (total index : Z) (radius : R) :
  (1 <= total)%Z -> (0 <= index < total)%Z -> 0 <= radius ->
  let p := calculateNodePosition index total radius in
  let angle := 90 - IZR index * (360 / IZR total) in
  x p = 400 + radius * cos (angle * PI / 180)
  /\ y p = 400 - radius * sin (angle * PI / 180)
  /\ sqrt ((x p - 400) * (x p - 400) + (y p - 400) * (y p - 400))
     = radius.
Proof.
  intros Ht Hi Hr p angle. subst p angle.
  unfold calculateNodePosition. cbn [x y].
  split; [reflexivity|]. split; [reflexivity|].
  apply (on_circle (toRadians (angleInDegrees index total)) Hr).
Qed.

Lemma node_on_circle_witness :
  (1 <= 3)%Z /\ (0 <= 1 < 3)%Z /\ 0 <= 250
  /\ let p := calculateNodePosition 1 3 250 in
     sqrt ((x p - 400) * (x p - 400) + (y p - 400) * (y p - 400)) = 250.
Proof.
  split; [lia|]. split; [lia|]. split; [lra|].
  apply (@node_on_circle 3 1 250); [lia | lia | lra].
Defined.

End CycleLayout.

(* ------------------------------------------------------------------ *)
(** * Properties of the array helpers *)

Section ArrayFacts.

Context {A : Type}.
Implicit Types (xs : list A) (x : A).

Lemma splice_start_in_range (len start : Z) :
  (0 <= len)%Z ->
  (0 <= Js.splice_start len start <= len)%Z.
Proof.
  intros Hlen. unfold Js.splice_start.
  destruct (start <? 0)%Z eqn:E; lia.
Qed.

Lemma splice_start_id (len start : Z) :
  (0 <= start <= len)%Z -> Js.splice_start len start = start.
Proof.
  intros H. unfold Js.splice_start.
  destruct (start <? 0)%Z eqn:E; [apply Z.ltb_lt in E|]; lia.
Qed.

Lemma insert_at_split (p : nat) x xs :
  (p <= length xs)%nat ->
  inserted_at p x xs (firstn p xs ++ x :: skipn p xs).
Proof.
  intros Hp.
  assert (Hlen : length (firstn p xs) = p) by now apply firstn_length_le.
  repeat split.
  - rewrite length_app. cbn [length].
    rewrite <- (firstn_skipn p xs) at 3. rewrite length_app. lia.
  - rewrite nth_error_app2 by lia.
    now rewrite Hlen, Nat.sub_diag.
  - intros i Hi. rewrite nth_error_app1 by lia.
    rewrite nth_error_firstn.
    now replace (i <? p)%nat with true by (symmetry; apply Nat.ltb_lt; lia).
  - intros i Hi. rewrite nth_error_app2 by lia.
    rewrite Hlen. replace (S i - p)%nat with (S (i - p)) by lia.
    cbn [nth_error]. rewrite nth_error_skipn. f_equal. lia.
Qed.

Lemma splice_insert_split xs (start : Z) x :
  exists p : nat,
    p = Z.to_nat (Js.splice_start (Z.of_nat (length xs)) start)
    /\ (p <= length xs)%nat
    /\ Js.splice_insert xs start x = firstn p xs ++ x :: skipn p xs.
Proof.
  eexists. split; [reflexivity|]. split; [|reflexivity].
  pose proof (@splice_start_in_range (Z.of_nat (length xs)) start). lia.
Qed.

Lemma splice_insert_perm xs (start : Z) x :
  Permutation (Js.splice_insert xs start x) (x :: xs).
Proof.
  destruct (splice_insert_split xs start x) as (p & _ & _ & ->).
  rewrite <- (firstn_skipn p xs) at 3.
  symmetry. apply Permutation_middle.
Qed.

Lemma findIndex_Some (f : A -> bool) xs (i : nat) :
  Js.findIndex f xs = Some i ->
  exists x, nth_error xs i = Some x /\ f x = true.
Proof.
  revert i. induction xs as [|y ys IH]; intros i; cbn; [discriminate|].
  destruct (f y) eqn:Fy.
  - intros [= <-]. now exists y.
  - destruct (Js.findIndex f ys) as [j|]; [|discriminate].
    intros [= <-]. cbn. now apply IH.
Qed.

Lemma findIndex_None (f : A -> bool) xs :
  Js.findIndex f xs = None -> forall x, In x xs -> f x = false.
Proof.
  induction xs as [|y ys IH]; cbn; [now intros _ x []|].
  destruct (f y) eqn:Fy; [discriminate|].
  destruct (Js.findIndex f ys); [discriminate|].
  intros _ x [<-|Hin]; [assumption | now apply IH].
Qed.

(** Exchanging two neighbours, whichever of the two is written first. *)
Lemma set_nth_neighbours (i : nat) xs (a b : A) :
  nth_error xs i = Some a -> nth_error xs (S i) = Some b ->
  Js.set_nth (S i) a (Js.set_nth i b xs)
  = firstn i xs ++ b :: a :: skipn (S (S i)) xs
  /\ Js.set_nth i b (Js.set_nth (S i) a xs)
     = firstn i xs ++ b :: a :: skipn (S (S i)) xs.
Proof.
  revert xs. induction i as [|i IH]; intros xs Ha Hb.
  - destruct xs as [|x0 [|x1 rest]]; try discriminate.
    cbn in Ha, Hb. injection Ha as ->. injection Hb as ->.
    now split.
  - destruct xs as [|x0 rest]; [discriminate|].
    cbn in Ha. change (nth_error rest (S i) = Some b) in Hb.
    destruct (IH rest Ha Hb) as [E1 E2].
    split; cbn; f_equal; assumption.
Qed.

Lemma neighbours_split (i : nat) xs (a b : A) :
  nth_error xs i = Some a -> nth_error xs (S i) = Some b ->
  xs = firstn i xs ++ a :: b :: skipn (S (S i)) xs.
Proof.
  revert xs. induction i as [|i IH]; intros xs Ha Hb.
  - destruct xs as [|x0 [|x1 rest]]; try discriminate.
    cbn in Ha, Hb. now injection Ha as ->; injection Hb as ->.
  - destruct xs as [|x0 rest]; [discriminate|].
    cbn in Ha. change (nth_error rest (S i) = Some b) in Hb.
    cbn. f_equal. now apply IH.
Qed.

Lemma swap_neighbours_perm (i : nat) xs (a b : A) :
  nth_error xs i = Some a -> nth_error xs (S i) = Some b ->
  Permutation (Js.swap i (S i) xs) xs
  /\ Permutation (Js.swap (S i) i xs) xs.
Proof.
  intros Ha Hb.
  destruct (set_nth_neighbours i xs Ha Hb) as [E1 E2].
  assert (P : Permutation (firstn i xs ++ b :: a :: skipn (S (S i)) xs) xs).
  { rewrite (neighbours_split i xs Ha Hb) at 3.
    apply Permutation_app_head, perm_swap. }
  unfold Js.swap. rewrite Ha, Hb. now rewrite E1, E2.
Qed.

End ArrayFacts.

Section MaxFacts.

Local Open Scope Z_scope.

Lemma max_of_bounds (x : Z) (xs : list Z) :
  x <= Js.max_of x xs /\ Forall (fun i => i <= Js.max_of x xs) xs.
Proof.
  unfold Js.max_of. revert x.
  induction xs as [|y ys IH]; intros x; cbn.
  - split; [lia | constructor].
  - destruct (IH (Z.max x y)) as [H1 H2].
    split; [lia|]. constructor; [lia | assumption].
Qed.

Lemma max_of_In (x : Z) (xs : list Z) : In (Js.max_of x xs) (x :: xs).
Proof.
  unfold Js.max_of. revert x.
  induction xs as [|y ys IH]; intros x; cbn; [now left|].
  destruct (IH (Z.max x y)) as [H|H]; [|now right; right].
  rewrite <- H.
  destruct (Z.max_spec x y) as [[_ E]|[_ E]]; rewrite E;
    [right; left | left]; reflexivity.
Qed.

Lemma max_of_greatest (x : Z) (xs : list Z) :
  greatest (Js.max_of x xs) (x :: xs).
Proof.
  split; [apply max_of_In|].
  destruct (max_of_bounds x xs). now constructor.
Qed.

Lemma greatest_unique (m m' : Z) (ids : list Z) :
  greatest m ids -> greatest m' ids -> m = m'.
Proof.
  intros [I1 F1] [I2 F2]. rewrite Forall_forall in F1, F2.
  specialize (F1 _ I2). specialize (F2 _ I1). cbn in F1, F2. lia.
Qed.

Lemma max_with_zero_bounds (xs : list Z) :
  0 <= Js.max_with_zero xs
  /\ Forall (fun i => i <= Js.max_with_zero xs) xs.
Proof.
  unfold Js.max_with_zero. induction xs as [|y ys [H0 HF]]; cbn.
  - split; [lia | constructor].
  - split; [lia|]. constructor; [lia|].
    eapply Forall_impl; [|exact HF]. cbn. intros; lia.
Qed.

Lemma max_with_zero_greatest (m : Z) (xs : list Z) :
  greatest m xs -> Js.max_with_zero xs = Z.max m 0.
Proof.
  unfold Js.max_with_zero. intros [Hin HF].
  induction xs as [|y ys IH]; [destruct Hin|].
  cbn. inversion HF as [|? ? Hy HF']; subst.
  destruct Hin as [->|Hin].
  - pose proof (max_with_zero_bounds ys) as [H0 Hall].
    unfold Js.max_with_zero in *.
    assert (fold_right Z.max 0 ys <= Z.max m 0).
    { clear - HF'. induction ys as [|z zs IHz]; cbn; [lia|].
      inversion HF'; subst. specialize (IHz ltac:(assumption)). lia. }
    lia.
  - rewrite (IH Hin HF'). lia.
Qed.

Lemma Forall_lt_not_In (m : Z) (ids : list Z) :
  Forall (fun i => i < m) ids -> ~ In m ids.
Proof.
  intros HF Hin. rewrite Forall_forall in HF.
  specialize (HF _ Hin). cbn in HF. lia.
Qed.

Lemma max_with_zero_In (xs : list Z) :
  Js.max_with_zero xs = 0 \/ In (Js.max_with_zero xs) xs.
Proof.
  unfold Js.max_with_zero. induction xs as [|y ys IH]; cbn; [now left|].
  destruct (Z.max_spec y (fold_right Z.max 0 ys)) as [[_ E]|[_ E]];
    rewrite E.
  - destruct IH as [IH|IH]; [now left | now right; right].
  - right. now left.
Qed.

Lemma roundToDouble_exact (z : Z) :
  - Js.twoTo53 <= z <= Js.twoTo53 -> Js.roundToDouble z = z.
Proof.
  intros H. unfold Js.roundToDouble.
  destruct (Z.abs z <? Js.twoTo53) eqn:E; [reflexivity|].
  apply Z.ltb_ge in E. unfold Js.twoTo53 in H, E.
  assert (C : z = 9007199254740992 \/ z = -9007199254740992) by lia.
  destruct C as [-> | ->]; vm_compute; reflexivity.
Qed.

(** Adding one is exact up to 2^53. *)
Lemma add_one_exact (m : Z) :
  - Js.twoTo53 - 1 <= m < Js.twoTo53 -> Js.add m 1 = m + 1.
Proof. intros H. unfold Js.add. apply roundToDouble_exact. lia. Qed.

Lemma safe_headroom (ids : list Z) :
  Forall Js.safeInteger ids -> headroom 1 ids.
Proof.
  intros H. split; [unfold Js.twoTo53; lia|].
  eapply Forall_impl; [|exact H]. unfold Js.safeInteger. intros i Hs. lia.
Qed.

Lemma headroom_weaken (k k' : Z) (ids : list Z) :
  headroom k ids -> 0 <= k' <= k -> headroom k' ids.
Proof.
  intros [Hk H] Hk'. split; [lia|].
  eapply Forall_impl; [|exact H]. cbn. intros i Hi. lia.
Qed.

Lemma headroom_incl (k : Z) (ids ids' : list Z) :
  headroom k ids -> (forall i, In i ids' -> In i ids) -> headroom k ids'.
Proof.
  intros [Hk H] Hincl. split; [exact Hk|].
  rewrite Forall_forall in H |- *. intros i Hi. now apply H, Hincl.
Qed.

(** One more than zero or than one of the ids is exact when there is
    room for [k + 1] increments, and leaves room for [k]. *)
Lemma headroom_next (k m : Z) (ids : list Z) :
  headroom (k + 1) ids -> 0 <= k ->
  m = 0 \/ In m ids ->
  Js.add m 1 = m + 1 /\ headroom k (Js.add m 1 :: ids).
Proof.
  intros [Hk H] Hk0 Hm.
  assert (Hmb : - Js.twoTo53 < m /\ m + (k + 1) <= Js.twoTo53).
  { destruct Hm as [-> | Hin]; [unfold Js.twoTo53 in *; lia|].
    rewrite Forall_forall in H. exact (H m Hin). }
  assert (E : Js.add m 1 = m + 1) by (apply add_one_exact; lia).
  split; [exact E|]. rewrite E. split; [lia|].
  constructor; [lia|].
  eapply Forall_impl; [|exact H]. cbn. intros i Hi. lia.
Qed.

End MaxFacts.

(* ------------------------------------------------------------------ *)
(** * Properties of the node store *)

Section Insert.

Local Open Scope Z_scope.

Lemma list_newId_headroom (ns : list ListArt.Node) (k : Z) :
  headroom (k + 1) (map ListArt.id ns) -> 0 <= k ->
  Forall (fun i => i < ListArt.newId ns) (map ListArt.id ns)
  /\ headroom k (ListArt.newId ns :: map ListArt.id ns).
Proof.
  intros Hh Hk. unfold ListArt.newId.
  destruct (map ListArt.id ns) as [|i rest] eqn:E.
  - split; [constructor|]. destruct Hh as [Hk1 _].
    split; [lia|]. constructor; [|constructor].
    unfold Js.twoTo53 in *. lia.
  - destruct (@headroom_next k (Js.max_of i rest) (i :: rest) Hh Hk)
      as [Ex Hn]; [right; apply max_of_In|].
    split; [|exact Hn]. rewrite Ex.
    destruct (max_of_bounds i rest) as [H1 H2].
    constructor; [lia|].
    eapply Forall_impl; [|exact H2]. cbn. intros; lia.
Qed.

Lemma cycle_newId_headroom (ns : list Cycle.CycleNode) (k : Z) :
  headroom (k + 1) (map Cycle.id ns) -> 0 <= k ->
  Cycle.newId ns = Js.max_with_zero (map Cycle.id ns) + 1
  /\ Forall (fun i => i < Cycle.newId ns) (map Cycle.id ns)
  /\ headroom k (Cycle.newId ns :: map Cycle.id ns).
Proof.
  intros Hh Hk. unfold Cycle.newId.
  destruct (@headroom_next k (Js.max_with_zero (map Cycle.id ns))
              (map Cycle.id ns) Hh Hk) as [Ex Hn];
    [apply max_with_zero_In|].
  split; [exact Ex|]. split; [|exact Hn]. rewrite Ex.
  destruct (max_with_zero_bounds (map Cycle.id ns)) as [_ H].
  eapply Forall_impl; [|exact H]. cbn. intros; lia.
Qed.

Lemma list_newId_above (ns : list ListArt.Node) :
  Forall Js.safeInteger (map ListArt.id ns) ->
  Forall (fun i => i < ListArt.newId ns) (map ListArt.id ns).
Proof.
  intros Hs.
  exact (proj1 (@list_newId_headroom ns 0 (safe_headroom Hs)
                  (Z.le_refl 0))).
Qed.

Lemma cycle_newId_above (ns : list Cycle.CycleNode) :
  Forall Js.safeInteger (map Cycle.id ns) ->
  Forall (fun i => i < Cycle.newId ns) (map Cycle.id ns).
Proof.
  intros Hs.
  exact (proj1 (proj2 (@cycle_newId_headroom ns 0 (safe_headroom Hs)
                         (Z.le_refl 0)))).
Qed.

Lemma Forall_map_iff {A B : Type} (f : A -> B) (P : B -> Prop)
    (l : list A) :
  Forall P (map f l) <-> Forall (fun a => P (f a)) l.
Proof. apply Forall_map. Qed.

(** C5, as the code has it. For a sequence of length [n] and a position
    [0 <= p <= n], the list insert [handleAddClick s p] and the cycle
    insert [handleAddNode ns (p - 1)] give a sequence of length [n + 1]
    with the new node at index [p] and the original nodes in their
    original order; the new id is 1 on the empty sequence. When every
    prior id is a safe integer (below 2^53 in magnitude), the new id is
    strictly greater than every prior id; in the list it is the greatest
    prior id plus one, in the cycle it is the greater of the greatest
    prior id and 0, plus one. *)
Theorem insert_spec :
  (forall (s : ListArt.State) (p : Z),
      0 <= p <= Z.of_nat (length (ListArt.nodes s)) ->
      let ns := ListArt.nodes s in
      let new := ListArt.newNode ns in
      inserted_at (Z.to_nat p) new ns
        (ListArt.nodes (ListArt.handleAddClick s p))
      /\ (ns = [] -> ListArt.id new = 1)
      /\ (Forall Js.safeInteger (map ListArt.id ns) ->
          Forall (fun n => ListArt.id n < ListArt.id new) ns
          /\ (forall m, greatest m (map ListArt.id ns) ->
                        ListArt.id new = m + 1)))
  /\ (forall (ns : list Cycle.CycleNode) (p : Z),
         0 <= p <= Z.of_nat (length ns) ->
         let new := Cycle.newNode ns in
         inserted_at (Z.to_nat p) new ns (Cycle.handleAddNode ns (p - 1))
         /\ (ns = [] -> Cycle.id new = 1)
         /\ (Forall Js.safeInteger (map Cycle.id ns) ->
             Forall (fun n => Cycle.id n < Cycle.id new) ns
             /\ (forall m, greatest m (map Cycle.id ns) ->
                           Cycle.id new = Z.max m 0 + 1))).
Proof.
  split.
  - intros s p Hp ns new. subst ns new.
    split; [|split].
    + cbn [ListArt.nodes ListArt.handleAddClick ListArt.setNodes
           ListArt.setPressedNode ListArt.setEditingTitle
           ListArt.setEditingBody ListArt.setContainerActive].
      unfold Js.splice_insert. rewrite splice_start_id by exact Hp.
      apply insert_at_split. lia.
    + intros E. rewrite E. reflexivity.
    + intros Hs. split.
      * apply Forall_map_iff with (P := fun i => i < ListArt.newId _).
        now apply list_newId_above.
      * intros m Hm. cbn [ListArt.id ListArt.newNode].
        unfold ListArt.newId.
        destruct (map ListArt.id (ListArt.nodes s)) as [|i rest] eqn:E.
        -- destruct Hm as [[] _].
        -- assert (Em : Js.max_of i rest = m)
             by (eapply greatest_unique; [apply max_of_greatest | exact Hm]).
           rewrite Em. apply add_one_exact.
           destruct Hm as [Hin _]. rewrite Forall_forall in Hs.
           specialize (Hs m Hin). unfold Js.safeInteger in Hs. lia.
  - intros ns p Hp new. subst new.
    split; [|split].
    + unfold Cycle.handleAddNode, Js.splice_insert.
      replace (p - 1 + 1) with p by lia.
      rewrite splice_start_id by exact Hp.
      apply insert_at_split. lia.
    + intros E. rewrite E. reflexivity.
    + intros Hs. split.
      * apply Forall_map_iff with (P := fun i => i < Cycle.newId _).
        now apply cycle_newId_above.
      * intros m Hm. cbn [Cycle.id Cycle.newNode].
        rewrite (proj1 (@cycle_newId_headroom ns 0 (safe_headroom Hs)
                          (Z.le_refl 0))).
        now rewrite (max_with_zero_greatest Hm).
Qed.

End Insert.

Section InsertExamples.

Local Open Scope Z_scope.
Local Open Scope string_scope.

Lemma insert_spec_witness :
  0 <= 1 <= 3
  /\ inserted_at 1 (ListArt.newNode sample) sample
       (ListArt.nodes (ListArt.handleAddClick (ListArt.initialState sample) 1))
  /\ Forall Js.safeInteger (map ListArt.id sample)
  /\ Forall (fun n => ListArt.id n < ListArt.id (ListArt.newNode sample))
       sample
  /\ 0 <= 1 <= 1
  /\ inserted_at 1 (Cycle.newNode [Cycle.mkCycleNode 7 "a" "b"])
       [Cycle.mkCycleNode 7 "a" "b"]
       (Cycle.handleAddNode [Cycle.mkCycleNode 7 "a" "b"] (1 - 1)).
Proof.
  assert (P : 0 <= 1 <= Z.of_nat (length (ListArt.nodes
                                            (ListArt.initialState sample))))
    by (cbn; lia).
  assert (S : Forall Js.safeInteger
                (map ListArt.id (ListArt.nodes
                                   (ListArt.initialState sample)))).
  { repeat constructor; unfold Js.safeInteger, Js.twoTo53; cbn; lia. }
  destruct (proj1 insert_spec (ListArt.initialState sample) 1 P)
    as (I & _ & A).
  split; [lia|]. split; [exact I|]. split; [exact S|].
  split; [exact (proj1 (A S))|]. split; [lia|].
  apply (proj2 insert_spec [Cycle.mkCycleNode 7 "a" "b"] 1). cbn. lia.
Defined.

(** C5, as stated, fails for the cycle insert when every id is negative:
    on the one-node sequence with id -5 the new node, put at index 1, has
    id 1 and not -5 + 1. It also fails at the id 2^53, where adding one
    gives 2^53 again: the new id of the list insert is then neither the
    greatest id plus one nor greater than the prior id. *)
Lemma cycle_insert_id_not_max_plus_one :
  (let ns := [Cycle.mkCycleNode (-5) "Step" "details"] in
   greatest (-5) (map Cycle.id ns)
   /\ nth_error (Cycle.handleAddNode ns 0) 1
      = Some (Cycle.mkCycleNode 1 "New Step" "Add details here")
   /\ 1 <> -5 + 1)
  /\ (let ns := [ListArt.mkNode 9007199254740992 "Heading" "Text" "i.png"] in
      greatest 9007199254740992 (map ListArt.id ns)
      /\ ListArt.id (ListArt.newNode ns) = 9007199254740992
      /\ ~ Forall (fun n => ListArt.id n < ListArt.id (ListArt.newNode ns))
            ns).
Proof.
  split.
  - cbn. split; [|split; [vm_compute; reflexivity | lia]].
    split; [now left | repeat constructor; lia].
  - cbn zeta. split; [|split].
    + split; [now left | repeat constructor; cbn; lia].
    + vm_compute. reflexivity.
    + intros H. inversion H as [|? ? Hlt _]; subst.
      vm_compute in Hlt. discriminate Hlt.
Qed.

End InsertExamples.

Section StoreInvariant.

Import ListArt.
Local Open Scope Z_scope.

Lemma map_id_setImageOf (nodeId : Z) (url : string) (ns : list Node) :
  map id (setImageOf nodeId url ns) = map id ns.
Proof.
  unfold setImageOf. rewrite map_map. apply map_ext.
  intros n. now destruct (id n =? nodeId).
Qed.

Lemma NoDup_map_filter {A B : Type} (f : A -> B) (g : A -> bool)
    (l : list A) :
  NoDup (map f l) -> NoDup (map f (filter g l)).
Proof.
  induction l as [|a l IH]; cbn; [trivial|].
  intros H. apply NoDup_cons_iff in H as [Hnot Hnd].
  destruct (g a); cbn; [|now apply IH].
  constructor; [|now apply IH].
  intros Hin. apply Hnot.
  apply in_map_iff in Hin as (x & Hx & Hin).
  apply filter_In in Hin as [Hin _].
  apply in_map_iff. now exists x.
Qed.

Lemma insert_keeps_distinct (ns : list Node) (position : Z) :
  Forall Js.safeInteger (map id ns) ->
  distinctIds ns ->
  distinctIds (Js.splice_insert ns position (newNode ns)).
Proof.
  unfold distinctIds. intros Hs Hnd.
  eapply Permutation_NoDup.
  - symmetry. apply Permutation_map. apply splice_insert_perm.
  - cbn. constructor; [|exact Hnd].
    now apply Forall_lt_not_In, list_newId_above.
Qed.

Lemma cycle_insert_keeps_distinct (ns : list Cycle.CycleNode) (i : Z) :
  Forall Js.safeInteger (map Cycle.id ns) ->
  NoDup (map Cycle.id ns) -> NoDup (map Cycle.id (Cycle.handleAddNode ns i)).
Proof.
  intros Hs Hnd. unfold Cycle.handleAddNode.
  eapply Permutation_NoDup.
  - symmetry. apply Permutation_map. apply splice_insert_perm.
  - cbn. constructor; [|exact Hnd].
    now apply Forall_lt_not_In, cycle_newId_above.
Qed.

Lemma headroom_is_safe (k : Z) (ids : list Z) :
  headroom (k + 1) ids -> 0 <= k -> Forall Js.safeInteger ids.
Proof.
  intros [_ H] Hk. eapply Forall_impl; [|exact H].
  unfold Js.safeInteger. cbn. intros i Hi. lia.
Qed.

Lemma moveLeft_perm (s : State) (nodeId : Z) :
  Permutation (nodes (handleMoveLeft s nodeId)) (nodes s).
Proof.
  unfold handleMoveLeft.
  destruct (indexOfId nodeId (nodes s)) as [i|] eqn:E; [|reflexivity].
  destruct i as [|k]; [reflexivity|].
  cbn [Nat.ltb Nat.leb]. cbn [afterMove nodes setNodes setPressedNode
    setContainerActive setEditingTitle setEditingBody].
  apply findIndex_Some in E as (b & Hb & _).
  assert (Hk : exists a, nth_error (nodes s) k = Some a).
  { destruct (nth_error (nodes s) k) as [a|] eqn:Ek; [now exists a|].
    apply nth_error_None in Ek.
    assert (nth_error (nodes s) (S k) <> None) by congruence.
    apply nth_error_Some in H. lia. }
  destruct Hk as (a & Ha).
  replace (S k - 1)%nat with k by lia.
  apply (swap_neighbours_perm k (nodes s) Ha Hb).
Qed.

Lemma moveRight_perm (s s' : State) (nodeId : Z) :
  handleMoveRight s nodeId = Some s' ->
  Permutation (nodes s') (nodes s).
Proof.
  unfold handleMoveRight.
  destruct (indexOfId nodeId (nodes s)) as [i|] eqn:E.
  - destruct (Z.of_nat i <? Z.of_nat (length (nodes s)) - 1) eqn:L;
      intros [= <-]; [|reflexivity].
    apply Z.ltb_lt in L.
    cbn [afterMove nodes setNodes setPressedNode
      setContainerActive setEditingTitle setEditingBody].
    apply findIndex_Some in E as (a & Ha & _).
    destruct (nth_error (nodes s) (S i)) as [b|] eqn:Eb.
    + replace (i + 1)%nat with (S i) by lia.
      apply (swap_neighbours_perm i (nodes s) Ha Eb).
    + apply nth_error_None in Eb. lia.
  - destruct (-1 <? Z.of_nat (length (nodes s)) - 1);
      [discriminate | intros [= <-]; reflexivity].
Qed.

Lemma apply_keeps_distinct (s s' : State) (op : Trace.Op) :
  (Trace.insertCost op = 1 -> Forall Js.safeInteger (map id (nodes s))) ->
  distinctIds (nodes s) -> Trace.apply s op = Some s' ->
  distinctIds (nodes s').
Proof.
  unfold distinctIds. intros Hsafe Hnd.
  destruct op as [position|nodeId|nodeId|nodeId|nodeId newTitle
                 |nodeId newBody|closureNodes nodeId file
                 |targetNodeId outcome]; cbn [Trace.apply].
  - intros [= <-].
    cbn [nodes handleAddClick setNodes setPressedNode setEditingTitle
         setEditingBody setContainerActive].
    apply insert_keeps_distinct; [now apply Hsafe | exact Hnd].
  - intros [= <-]. unfold handleDeleteNode.
    destruct (Z.of_nat (length (nodes s)) <=? 1); [exact Hnd|].
    cbn. now apply NoDup_map_filter.
  - intros [= <-].
    eapply Permutation_NoDup; [|exact Hnd].
    symmetry. apply Permutation_map, moveLeft_perm.
  - intros H. eapply Permutation_NoDup; [|exact Hnd].
    symmetry. eapply Permutation_map, moveRight_perm, H.
  - intros [= <-]. cbn. rewrite map_map.
    erewrite map_ext; [exact Hnd|].
    intros n. now destruct (id n =? nodeId).
  - intros [= <-]. cbn. rewrite map_map.
    erewrite map_ext; [exact Hnd|].
    intros n. now destruct (id n =? nodeId).
  - intros [= <-]. unfold handleFileSelection.
    destruct (findNode nodeId closureNodes); [|exact Hnd].
    destruct file as [f|]; [|exact Hnd].
    destruct (negb (String.prefix "image/" (fileType f))); [exact Hnd|].
    cbn -[setImageOf]. now rewrite map_id_setImageOf.
  - intros [= <-]. unfold generateSettled.
    destruct (generateImageForTitle outcome); cbn -[setImageOf];
      now rewrite map_id_setImageOf.
Qed.

(** An operation other than an insert brings no new id. *)
Lemma apply_ids_incl (s s' : State) (op : Trace.Op) :
  Trace.insertCost op = 0 -> Trace.apply s op = Some s' ->
  forall i, In i (map id (nodes s')) -> In i (map id (nodes s)).
Proof.
  destruct op as [position|nodeId|nodeId|nodeId|nodeId newTitle
                 |nodeId newBody|closureNodes nodeId file
                 |targetNodeId outcome]; cbn [Trace.apply Trace.insertCost];
    intros Hc; try discriminate Hc.
  - intros [= <-] i. unfold handleDeleteNode.
    destruct (Z.of_nat (length (nodes s)) <=? 1); [trivial|].
    cbn [nodes setNodes setPressedNode setEditingTitle setEditingBody].
    rewrite !in_map_iff. intros (n & Hid & Hin).
    apply filter_In in Hin as [Hin _]. now exists n.
  - intros [= <-] i.
    apply Permutation_in, Permutation_map, moveLeft_perm.
  - intros H i.
    eapply Permutation_in, Permutation_map, moveRight_perm, H.
  - intros [= <-] i Hi. cbn in Hi. rewrite map_map in Hi.
    erewrite map_ext in Hi; [exact Hi|].
    intros n. now destruct (id n =? nodeId).
  - intros [= <-] i Hi. cbn in Hi. rewrite map_map in Hi.
    erewrite map_ext in Hi; [exact Hi|].
    intros n. now destruct (id n =? nodeId).
  - intros [= <-] i. unfold handleFileSelection.
    destruct (findNode nodeId closureNodes); [|trivial].
    destruct file as [f|]; [|trivial].
    destruct (negb (String.prefix "image/" (fileType f))); [trivial|].
    cbn -[setImageOf]. now rewrite map_id_setImageOf.
  - intros [= <-] i. unfold generateSettled.
    destruct (generateImageForTitle outcome); cbn -[setImageOf];
      now rewrite map_id_setImageOf.
Qed.

Lemma apply_keeps_headroom (s s' : State) (op : Trace.Op) (k : Z) :
  headroom (Trace.insertCost op + k) (map id (nodes s)) -> 0 <= k ->
  Trace.apply s op = Some s' ->
  headroom k (map id (nodes s')).
Proof.
  intros Hh Hk Happ.
  destruct (Z.eq_dec (Trace.insertCost op) 0) as [E0|E1].
  - rewrite E0 in Hh. cbn in Hh.
    eapply headroom_incl; [exact Hh|]. now apply apply_ids_incl with op.
  - destruct op; try (now contradiction E1).
    cbn [Trace.apply] in Happ. injection Happ as <-.
    cbn [Trace.insertCost] in Hh.
    replace (1 + k) with (k + 1) in Hh by lia.
    destruct (list_newId_headroom (nodes s) Hh Hk) as [_ Hn].
    eapply headroom_incl; [exact Hn|].
    intros i Hi.
    cbn [nodes handleAddClick setNodes setPressedNode setEditingTitle
         setEditingBody setContainerActive] in Hi.
    eapply Permutation_in in Hi;
      [|apply Permutation_map, splice_insert_perm].
    exact Hi.
Qed.

(** Only a move to the right aimed at an id that is not in the sequence
    fails. *)
Lemma apply_defined (s : State) (op : Trace.Op) :
  Trace.targetsExisting s op -> exists s', Trace.apply s op = Some s'.
Proof.
  destruct op; cbn; try (intros _; eexists; reflexivity).
  intros Hin. unfold handleMoveRight.
  destruct (indexOfId nodeId (nodes s)) as [i|] eqn:E.
  - destruct (Z.of_nat i <? Z.of_nat (length (nodes s)) - 1);
      eexists; reflexivity.
  - exfalso. apply in_map_iff in Hin as (n & Hid & Hin).
    pose proof (findIndex_None _ _ E n Hin) as F. cbn in F.
    apply Z.eqb_neq in F. congruence.
Qed.

End StoreInvariant.

Section StoreTheorems.

Import ListArt.
Local Open Scope string_scope.
Local Open Scope Z_scope.

Lemma countInserts_nonneg (ops : list Trace.Op) :
  0 <= Trace.countInserts ops.
Proof.
  induction ops as [|op ops IH]; cbn [Trace.countInserts]; [lia|].
  destruct op; cbn [Trace.insertCost]; lia.
Qed.

Lemma run_keeps_distinct (ops : list Trace.Op) :
  forall s s' : State,
    distinctIds (nodes s) ->
    headroom (Trace.countInserts ops) (map id (nodes s)) ->
    Trace.run ops s = Some s' ->
    distinctIds (nodes s') /\ headroom 0 (map id (nodes s')).
Proof.
  induction ops as [|op ops IH]; intros s s' Hnd Hh; cbn.
  - intros [= <-]. now split.
  - destruct (Trace.apply s op) as [s1|] eqn:E; [|discriminate].
    cbn [Trace.countInserts] in Hh.
    pose proof (countInserts_nonneg ops) as Hk.
    apply IH.
    + eapply apply_keeps_distinct; [|exact Hnd|exact E].
      intros E1. rewrite E1 in Hh.
      replace (1 + Trace.countInserts ops)
        with (Trace.countInserts ops + 1) in Hh by lia.
      exact (headroom_is_safe Hh Hk).
    + now apply apply_keeps_headroom with s op.
Qed.

Lemma runCycle_keeps_distinct (inserts : list Z) :
  forall ns : list Cycle.CycleNode,
    NoDup (map Cycle.id ns) ->
    headroom (Z.of_nat (length inserts)) (map Cycle.id ns) ->
    NoDup (map Cycle.id (Trace.runCycle inserts ns)).
Proof.
  unfold Trace.runCycle.
  induction inserts as [|i inserts IH]; intros ns Hnd Hh; [exact Hnd|].
  cbn [fold_left]. cbn [length] in Hh.
  replace (Z.of_nat (S (length inserts)))
    with (Z.of_nat (length inserts) + 1) in Hh by lia.
  assert (Hk : 0 <= Z.of_nat (length inserts)) by lia.
  apply IH.
  - apply cycle_insert_keeps_distinct; [|exact Hnd].
    exact (headroom_is_safe Hh Hk).
  - destruct (cycle_newId_headroom ns Hh Hk) as (_ & _ & Hn).
    eapply headroom_incl; [exact Hn|].
    intros j Hj. unfold Cycle.handleAddNode in Hj.
    eapply Permutation_in in Hj;
      [|apply Permutation_map, splice_insert_perm].
    exact Hj.
Qed.

Lemma run_defined (ops : list Trace.Op) :
  forall s : State,
    Trace.wellTargeted ops s -> exists s', Trace.run ops s = Some s'.
Proof.
  induction ops as [|op ops IH]; intros s; cbn.
  - intros _. now exists s.
  - intros [Ht Hrest].
    destruct (apply_defined s op Ht) as (s1 & E). rewrite E.
    apply IH, Hrest, E.
Qed.

(** C7. The code breaks the claim at the id 2^53 = 9007199254740992:
    there [Math.max(...ids) + 1] is 2^53 again, so the insert of either
    component turns a one-node sequence with pairwise-distinct ids into
    a sequence in which two nodes carry the id 2^53, and the fresh id
    collides with an existing one. *)
Theorem insert_duplicates_id_at_2_53 :
  let big := 9007199254740992 in
  (let s := initialState [mkNode big "Heading" "Text" "image.png"] in
   distinctIds (nodes s)
   /\ In (newId (nodes s)) (map id (nodes s))
   /\ map id (nodes (handleAddClick s 1)) = [big; big]
   /\ ~ distinctIds (nodes (handleAddClick s 1)))
  /\ (let ns := [Cycle.mkCycleNode big "Step" "details"] in
      NoDup (map Cycle.id ns)
      /\ In (Cycle.newId ns) (map Cycle.id ns)
      /\ map Cycle.id (Cycle.handleAddNode ns 0) = [big; big]
      /\ ~ NoDup (map Cycle.id (Cycle.handleAddNode ns 0))).
Proof.
  assert (D : forall b : Z, ~ NoDup [b; b]).
  { intros b H. apply NoDup_cons_iff in H as [H _]. apply H. now left. }
  cbn zeta. split.
  - assert (E : map id (nodes (handleAddClick
                 (initialState
                    [mkNode 9007199254740992 "Heading" "Text" "image.png"])
                 1)) = [9007199254740992; 9007199254740992])
      by (vm_compute; reflexivity).
    split; [unfold distinctIds; cbn; repeat constructor; intros []|].
    split; [left; vm_compute; reflexivity|].
    split; [exact E|]. unfold distinctIds. rewrite E. apply D.
  - assert (E : map Cycle.id
                 (Cycle.handleAddNode
                    [Cycle.mkCycleNode 9007199254740992 "Step" "details"]
                    0) = [9007199254740992; 9007199254740992])
      by (vm_compute; reflexivity).
    split; [cbn; repeat constructor; intros []|].
    split; [left; vm_compute; reflexivity|].
    split; [exact E|]. rewrite E. apply D.
Qed.

(** The rounding of [Js.add] is the one of the machine's doubles: adding
    one gives the same double on both sides at small ids, around 2^53
    and 2^54 where ties occur, far above, and at the negative mirror
    images. *)
Example add_one_as_the_machine :
  forallb Js.addsOneAsDouble
    [0; 1; 41; -5; 9007199254740990; 9007199254740991; 9007199254740992;
     9007199254740994; 9007199254740996; 18014398509481984;
     18014398509481988; 1152921504606846976; -9007199254740991;
     -9007199254740992; -9007199254740994; -9007199254740996;
     -18014398509481984; -18014398509481988; -1152921504606846976]
  = true.
Proof. vm_compute. reflexivity. Qed.

(** X24. As long as there is room below 2^53 for the inserts (every id
    is above -2^53 and the greatest id plus the number of inserts is at
    most 2^53), a node sequence with pairwise-distinct ids still has
    pairwise-distinct ids after any sequence of operations of the list
    component, and after any sequence of inserts of the cycle component;
    such a state is reached whenever every move to the right aims at a
    node of the sequence; with prior ids that are safe integers the
    fresh id of an insert is not the id of an existing node. *)
Theorem ids_stay_distinct_below_2_53 :
  (forall (ops : list Trace.Op) (s s' : State),
      distinctIds (nodes s) ->
      headroom (Trace.countInserts ops) (map id (nodes s)) ->
      Trace.run ops s = Some s' ->
      distinctIds (nodes s'))
  /\ (forall (ops : list Trace.Op) (s : State),
         distinctIds (nodes s) ->
         headroom (Trace.countInserts ops) (map id (nodes s)) ->
         Trace.wellTargeted ops s ->
         exists s', Trace.run ops s = Some s' /\ distinctIds (nodes s'))
  /\ (forall (inserts : list Z) (ns : list Cycle.CycleNode),
         NoDup (map Cycle.id ns) ->
         headroom (Z.of_nat (length inserts)) (map Cycle.id ns) ->
         NoDup (map Cycle.id (Trace.runCycle inserts ns)))
  /\ (forall ns : list Node,
         Forall Js.safeInteger (map id ns) ->
         ~ In (newId ns) (map id ns))
  /\ (forall ns : list Cycle.CycleNode,
         Forall Js.safeInteger (map Cycle.id ns) ->
         ~ In (Cycle.newId ns) (map Cycle.id ns)).
Proof.
  split; [|split; [|split; [|split]]].
  - intros ops s s' Hnd Hh Hrun.
    exact (proj1 (run_keeps_distinct ops s Hnd Hh Hrun)).
  - intros ops s Hnd Hh Hw.
    destruct (run_defined ops s Hw) as (s' & E).
    exists s'. split; [exact E|].
    exact (proj1 (run_keeps_distinct ops s Hnd Hh E)).
  - intros inserts. apply runCycle_keeps_distinct.
  - intros ns Hs. now apply Forall_lt_not_In, list_newId_above.
  - intros ns Hs. now apply Forall_lt_not_In, cycle_newId_above.
Qed.

Lemma ids_stay_distinct_below_2_53_witness :
  let ops := [Trace.Insert 1; Trace.MoveRight 2; Trace.Delete 1;
              Trace.TitleChange 3 "Parrots"; Trace.MoveLeft 4;
              Trace.GenerateSettled 2 (FetchRejected OtherValue)] in
  distinctIds sample
  /\ headroom (Trace.countInserts ops) (map id sample)
  /\ exists s', Trace.run ops (initialState sample) = Some s'
                /\ map id (nodes s') = [4; 3; 2]
                /\ distinctIds (nodes s').
Proof.
  intros ops.
  assert (H : distinctIds (nodes (initialState sample))).
  { unfold distinctIds. cbn.
    repeat constructor; cbn; intuition discriminate. }
  assert (R : headroom (Trace.countInserts ops)
                (map id (nodes (initialState sample)))).
  { split; [unfold Js.twoTo53; cbn; lia|].
    repeat constructor; unfold Js.twoTo53; cbn; lia. }
  split; [exact H|]. split; [exact R|].
  eexists. split; [vm_compute; reflexivity|].
  split; [vm_compute; reflexivity|].
  apply (proj1 ids_stay_distinct_below_2_53 ops (initialState sample) _
           H R).
  vm_compute. reflexivity.
Defined.

Lemma filter_all {A : Type} (f : A -> bool) (l : list A) :
  (forall x, In x l -> f x = true) -> filter f l = l.
Proof.
  induction l as [|a l IH]; cbn; [reflexivity|]. intros H.
  rewrite (H a (or_introl eq_refl)). f_equal. apply IH.
  intros x Hx. apply H. now right.
Qed.

(** C6, as the code has it. When the id is not in the sequence,
    [handleDeleteNode] leaves the node sequence as it is and shows no
    message; on a sequence of more than one node it still clears
    [pressedNode], [editingTitle] and [editingBody], and nothing else.
    When the sequence has length 1 it changes no state cell at all and
    shows no message: the state after is the state before. *)
Theorem delete_noop (s : State) (nodeId : Z) :
  (~ In nodeId (map id (nodes s)) ->
   nodes (handleDeleteNode s nodeId) = nodes s
   /\ alerts (handleDeleteNode s nodeId) = alerts s
   /\ (1 < Z.of_nat (length (nodes s)) ->
       handleDeleteNode s nodeId
       = mkState (nodes s) (hoveredNode s) None None None
           (containerActive s) (containerHovered s)
           (insertPictureMenuOpen s) (buttonRect s)
           (generatingImageForNode s) (alerts s)))
  /\ (length (nodes s) = 1%nat -> handleDeleteNode s nodeId = s).
Proof.
  unfold handleDeleteNode. split.
  - intros Hnot.
    assert (E : filter (fun node => negb (id node =? nodeId)) (nodes s)
                = nodes s).
    { apply filter_all. intros n Hn.
      apply negb_true_iff, Z.eqb_neq. intros E. apply Hnot.
      apply in_map_iff. now exists n. }
    destruct (Z.of_nat (length (nodes s)) <=? 1) eqn:L.
    + split; [reflexivity|]. split; [reflexivity|].
      apply Z.leb_le in L. lia.
    + cbn. rewrite E. repeat split.
  - intros ->. reflexivity.
Qed.

Lemma delete_noop_witness :
  ~ In 9 (map id sample)
  /\ nodes (handleDeleteNode (initialState sample) 9) = sample
  /\ length [dogs] = 1%nat
  /\ handleDeleteNode (initialState [dogs]) 1 = initialState [dogs].
Proof.
  assert (H : ~ In 9 (map id sample)) by (cbn; intuition discriminate).
  split; [exact H|]. split.
  - apply (proj1 (delete_noop (initialState sample) 9) H).
  - split; [reflexivity|].
    apply (proj2 (delete_noop (initialState [dogs]) 1)). reflexivity.
Defined.

(** C6, as stated, fails when "no-op" is read on the whole state: with
    three nodes and node 2 pressed and in title edit, deleting the absent
    id 9 keeps the three nodes but deselects node 2. *)
Lemma delete_absent_clears_selection :
  let s :=
    mkState sample None (Some 2) (Some 2) None false true None None None []
  in
  ~ In 9 (map id (nodes s))
  /\ nodes (handleDeleteNode s 9) = nodes s
  /\ pressedNode (handleDeleteNode s 9) = None
  /\ editingTitle (handleDeleteNode s 9) = None
  /\ handleDeleteNode s 9 <> s.
Proof.
  cbn. split; [intuition discriminate|].
  split; [reflexivity|]. split; [reflexivity|]. split; [reflexivity|].
  intros H. apply (f_equal pressedNode) in H. discriminate H.
Qed.

Lemma filter_twice {A : Type} (f : A -> bool) (l : list A) :
  filter f (filter f l) = filter f l.
Proof.
  apply filter_all. intros x Hx. now apply filter_In in Hx.
Qed.

(** Deleting the same id a second time changes nothing more. *)
Lemma delete_idempotent (s : State) (nodeId : Z) :
  handleDeleteNode (handleDeleteNode s nodeId) nodeId
  = handleDeleteNode s nodeId.
Proof.
  destruct (Z.of_nat (length (nodes s)) <=? 1) eqn:E.
  - assert (H : handleDeleteNode s nodeId = s)
      by (unfold handleDeleteNode; now rewrite E).
    rewrite H. exact H.
  - remember (filter (fun node => negb (id node =? nodeId)) (nodes s))
      as kept eqn:K.
    assert (H : handleDeleteNode s nodeId
                = mkState kept (hoveredNode s) None None None
                    (containerActive s) (containerHovered s)
                    (insertPictureMenuOpen s) (buttonRect s)
                    (generatingImageForNode s) (alerts s))
      by (unfold handleDeleteNode; rewrite E, K; reflexivity).
    rewrite H. unfold handleDeleteNode.
    cbn [nodes hoveredNode containerActive containerHovered
         insertPictureMenuOpen buttonRect generatingImageForNode alerts
         setNodes setPressedNode setEditingTitle setEditingBody].
    destruct (Z.of_nat (length kept) <=? 1); [reflexivity|].
    now rewrite K, filter_twice.
Qed.

(** C10. When the id targeted by a pending image request is not in the
    node sequence at the time the request settles, applying the
    resolution, a success as well as a failure, leaves the node sequence
    as it is: no node is created and no node's image is modified. *)
Theorem settle_without_target (s : State) (targetNodeId : Z)
    (result : Thrown + string) :
  ~ In targetNodeId (map id (nodes s)) ->
  nodes (generateSettled s targetNodeId result) = nodes s.
Proof.
  intros Hnot.
  assert (E : forall url, setImageOf targetNodeId url (nodes s) = nodes s).
  { intros url. unfold setImageOf.
    rewrite <- (map_id (nodes s)) at 2. apply map_ext_in.
    intros n Hn. destruct (id n =? targetNodeId) eqn:I; [|reflexivity].
    exfalso. apply Hnot, in_map_iff. exists n.
    split; [now apply Z.eqb_eq | exact Hn]. }
  destruct result as [e|url]; cbn -[setImageOf]; apply E.
Qed.

Lemma settle_without_target_witness :
  let pending :=
    handleDeleteNode
      (pictureSourceSelected (initialState sample) 2 "Generate with AI") 2
  in
  ~ In 2 (map id (nodes pending))
  /\ nodes (generateSettled pending 2 (inr "generated.png"))
     = nodes pending.
Proof.
  intros pending.
  assert (H : ~ In 2 (map id (nodes pending)))
    by (cbn; intuition discriminate).
  split; [exact H|].
  exact (@settle_without_target pending 2 (inr "generated.png") H).
Defined.

End StoreTheorems.

Section InteractionTheorems.

Import ListArt.
Local Open Scope string_scope.
Local Open Scope Z_scope.

(** C8. On a pointer-down whose target is outside the container and is
    neither an insert button nor inside the menu: when no image-source
    menu is open, [hoveredNode], [pressedNode], [editingTitle] and
    [editingBody] are reset to null and [containerActive] to false; when
    a menu is open, the menu is closed (with its stored button
    rectangle) and every other state cell keeps its value. *)
Theorem outside_click (s : State) (target : ClickTarget) :
  isClickOnButton target = false ->
  isClickOnMenu target = false ->
  outsideContainer target = true ->
  let s' := handleClickOutside s target in
  (insertPictureMenuOpen s = None ->
   hoveredNode s' = None /\ pressedNode s' = None
   /\ editingTitle s' = None /\ editingBody s' = None
   /\ containerActive s' = false)
  /\ (insertPictureMenuOpen s <> None ->
      s' = mkState (nodes s) (hoveredNode s) (pressedNode s)
             (editingTitle s) (editingBody s) (containerActive s)
             (containerHovered s) None None (generatingImageForNode s)
             (alerts s)).
Proof.
  intros Hb Hm Ho s'. subst s'. unfold handleClickOutside.
  rewrite Hb, Hm, Ho. cbn [negb andb].
  destruct (insertPictureMenuOpen s) as [open|] eqn:E; split.
  - discriminate.
  - intros _. reflexivity.
  - intros _. cbn. repeat split.
  - intros H. now contradiction H.
Qed.

Lemma outside_click_witness :
  let target := mkClickTarget false false true in
  let busy :=
    mkState sample (Some 1) (Some 2) (Some 2) None true true None None
      None [] in
  let menu :=
    mkState sample (Some 1) (Some 2) (Some 2) None true true (Some 1)
      (Some (mkDOMRect 10 20 32 32)) (Some 3) [] in
  handleClickOutside busy target
  = mkState sample None None None None false true None None None []
  /\ handleClickOutside menu target
     = mkState sample (Some 1) (Some 2) (Some 2) None true true None None
         (Some 3) [].
Proof.
  intros target busy menu. split.
  - reflexivity.
  - apply (proj2 (@outside_click menu target eq_refl eq_refl eq_refl)).
    cbn. discriminate.
Defined.

Lemma nth_error_setImageOf (nodeId : Z) (url : string) (ns : list Node)
    (i : nat) :
  nth_error (setImageOf nodeId url ns) i
  = option_map (fun node => if id node =? nodeId then withImage node url
                            else node)
      (nth_error ns i).
Proof. unfold setImageOf. apply nth_error_map. Qed.

Lemma requestFailed_throws (outcome : FetchOutcome) :
  requestFailed outcome -> exists e, generateImageForTitle outcome = inl e.
Proof.
  destruct outcome as [e|r]; cbn.
  - intros _. now exists e.
  - intros ->. cbn. eexists. reflexivity.
Qed.

(** C9. When the image request of the "Generate with AI" path fails with
    an HTTP or network error, then, whatever happened while it was
    pending, the state after the promise settles has no node marked as
    generating, has one more message shown to the user, and has the same
    nodes at the same indices as the state in which it settled, except
    that each node with the target id has the fallback URL as its image
    and its id, title and body unchanged. *)
Theorem generate_failure (s : State) (targetNodeId : Z)
    (between : State -> State) (outcome : FetchOutcome) :
  requestFailed outcome ->
  let pending :=
    between (pictureSourceSelected s targetNodeId "Generate with AI") in
  let final := generateWithAI s targetNodeId between outcome in
  exists e : Thrown,
    generateImageForTitle outcome = inl e
    /\ generatingImageForNode final = None
    /\ alerts final
       = (alerts pending
          ++ [("Failed to generate image: " ++ errorMessage e
               ++ ". Please try again.")%string])%list
    /\ length (nodes final) = length (nodes pending)
    /\ (forall (i : nat) (n : Node),
           nth_error (nodes pending) i = Some n ->
           id n = targetNodeId ->
           nth_error (nodes final) i
           = Some (mkNode (id n) (title n) (body n) fallbackImage))
    /\ (forall (i : nat) (n : Node),
           nth_error (nodes pending) i = Some n ->
           id n <> targetNodeId ->
           nth_error (nodes final) i = Some n).
Proof.
  intros Hfail pending final.
  destruct (requestFailed_throws outcome Hfail) as (e & He).
  exists e. split; [exact He|].
  subst final. unfold generateWithAI. fold pending. rewrite He.
  cbn -[setImageOf append]. repeat split.
  - unfold setImageOf. apply length_map.
  - intros i n Hn Hid. rewrite nth_error_setImageOf, Hn. cbn.
    now replace (id n =? targetNodeId) with true
      by (symmetry; apply Z.eqb_eq; exact Hid).
  - intros i n Hn Hid. rewrite nth_error_setImageOf, Hn. cbn.
    now replace (id n =? targetNodeId) with false
      by (symmetry; apply Z.eqb_neq; exact Hid).
Qed.

Lemma generate_failure_witness :
  let outcome :=
    FetchResponse (mkResponse false 403 "Forbidden" (JsonResults [])) in
  let final :=
    generateWithAI (initialState sample) 1 (fun st => st) outcome in
  requestFailed outcome
  /\ generatingImageForNode final = None
  /\ alerts final
     = ["Failed to generate image: Unsplash API error (403): Forbidden. Please try again."]
  /\ nodes final
     = [mkNode 1 "Dogs" "Loyal companions" fallbackImage; cats; birds].
Proof.
  intros outcome final.
  assert (H : requestFailed outcome) by reflexivity.
  split; [exact H|].
  destruct (@generate_failure (initialState sample) 1 (fun st => st)
              outcome H) as (e & He & Hg & _).
  split; [exact Hg|]. split; reflexivity.
Defined.

End InteractionTheorems.

Section RowLayout.

Import ListArt.
Local Open Scope Z_scope.

(** C3, as the code has it. With W = 200, G = 24 and P = 20, when the
    insertion buttons are rendered (container hovered, no node pressed),
    for [nodeCount >= 2] and [0 <= i <= nodeCount - 2] the button between
    slot [i] and slot [i + 1] has [left] equal to
    [P + (i+1)*W + i*G + G/2 + 6] pixels and inserts at position
    [i + 1]. *)
Theorem between_button_left (s : State) (i : nat) :
  containerHovered s = true -> pressedNode s = None ->
  (2 <= length (nodes s))%nat -> (i <= length (nodes s) - 2)%nat ->
  nth_error (betweenButtons s) i
  = Some (mkAddButton
            (LeftPx (20 + (Z.of_nat i + 1) * 200 + Z.of_nat i * 24
                     + 24 / 2 + 6))
            (Z.of_nat i + 1)).
Proof.
  intros Hh Hp Hn Hi. unfold betweenButtons.
  rewrite Hh, Hp. cbn [isNone andb].
  replace (1 <? Z.of_nat (length (nodes s))) with true
    by (symmetry; apply Z.ltb_lt; lia).
  rewrite nth_error_map, nth_error_seq.
  replace (i <? length (nodes s) - 1)%nat with true
    by (symmetry; apply Nat.ltb_lt; lia).
  cbn [option_map Nat.add]. unfold leftPos. cbv zeta.
  do 3 f_equal. ring.
Qed.

Lemma between_button_left_witness :
  let s :=
    mkState sample None None None None false true None None None [] in
  containerHovered s = true /\ pressedNode s = None
  /\ (2 <= length (nodes s))%nat /\ (1 <= length (nodes s) - 2)%nat
  /\ nth_error (betweenButtons s) 1 = Some (mkAddButton (LeftPx 462) 2).
Proof.
  intros s. split; [reflexivity|]. split; [reflexivity|].
  split; [cbn; lia|]. split; [cbn; lia|].
  apply (@between_button_left s 1 eq_refl eq_refl); cbn; lia.
Defined.

(** C3, as stated, fails: with two nodes the only between-column button
    has [left] 238, not [P + (0+1)*W + 0*G + G/2 = 232]. *)
Lemma between_button_not_at_half_gap :
  let s :=
    mkState [dogs; cats] None None None None false true None None None []
  in
  map anchor (betweenButtons s) = [LeftPx 238]
  /\ 238 <> 20 + (0 + 1) * 200 + 0 * 24 + 24 / 2.
Proof.
  cbn. split; [reflexivity|]. intros H. discriminate H.
Qed.

End RowLayout.

(* ------------------------------------------------------------------ *)
(** * Further properties of the radial layout *)

Section Angles.

Import Cycle.
Local Open Scope R_scope.

Lemma Rgeb_true (a b : R) : a >= b -> Rgeb a b = true.
Proof. intros H. unfold Rgeb. destruct (Rge_dec a b); [reflexivity | lra]. Qed.

Lemma Rltb_true (a b : R) : a < b -> Rltb a b = true.
Proof. intros H. unfold Rltb. destruct (Rlt_dec a b); [reflexivity | lra]. Qed.

Lemma Rltb_false (a b : R) : a >= b -> Rltb a b = false.
Proof. intros H. unfold Rltb. destruct (Rlt_dec a b); [lra | reflexivity]. Qed.

Lemma trunc_bounds (t : R) :
  (0 <= t -> IZR (trunc t) <= t < IZR (trunc t) + 1)
  /\ (t < 0 -> t <= IZR (trunc t) < t + 1).
Proof.
  unfold trunc. destruct (Rle_dec 0 t) as [Hpos|Hneg].
  - split; [intros _ | lra].
    destruct (base_Int_part t). lra.
  - split; [lra | intros _].
    rewrite opp_IZR. destruct (base_Int_part (- t)). lra.
Qed.

Lemma js_rem_360_range (a : R) :
  (0 <= a -> 0 <= js_rem a 360 < 360)
  /\ (a < 0 -> -360 < js_rem a 360 <= 0).
Proof.
  unfold js_rem.
  assert (E : a = 360 * (a / 360)) by field.
  destruct (trunc_bounds (a / 360)) as [Hp Hn].
  split; intros Ha.
  - assert (0 <= a / 360) by lra. specialize (Hp H). lra.
  - assert (a / 360 < 0) by lra. specialize (Hn H). lra.
Qed.

Lemma normalize_range (deg : R) : 0 <= normalize deg < 360.
Proof.
  unfold normalize.
  destruct (js_rem_360_range deg) as [Hp Hn].
  destruct (js_rem_360_range (js_rem deg 360 + 360)) as [Hp' _].
  apply Hp'. destruct (Rle_dec 0 deg); lra.
Qed.

Lemma normalize_congruent (deg : R) :
  exists k : Z, normalize deg = deg + 360 * IZR k.
Proof.
  unfold normalize, js_rem.
  exists (1 - trunc (deg / 360)
          - trunc ((deg - 360 * IZR (trunc (deg / 360)) + 360) / 360))%Z.
  rewrite !minus_IZR. ring.
Qed.

Lemma normalize_unique (deg : R) (k : Z) :
  0 <= deg + 360 * IZR k < 360 -> normalize deg = deg + 360 * IZR k.
Proof.
  intros Hk. destruct (normalize_congruent deg) as (k' & E).
  pose proof (normalize_range deg) as Hr. rewrite E in Hr |- *.
  assert (Hlt : (k' - k < 1)%Z).
  { apply lt_IZR. rewrite minus_IZR. lra. }
  assert (Hgt : (-1 < k' - k)%Z).
  { apply lt_IZR. rewrite minus_IZR. lra. }
  now replace k' with k by lia.
Qed.

Lemma toRadians_turns (deg : R) (k : Z) :
  toRadians (deg + 360 * IZR k) = toRadians deg + 2 * IZR k * PI.
Proof. unfold toRadians. field. Qed.

Lemma cos_turns (x : R) (k : Z) : cos (x + 2 * IZR k * PI) = cos x.
Proof.
  destruct (Z_le_gt_dec 0 k) as [Hk|Hk].
  - rewrite <- (Z2Nat.id k Hk), <- INR_IZR_INZ. apply cos_period.
  - rewrite <- (cos_period (x + 2 * IZR k * PI) (Z.to_nat (- k))).
    rewrite INR_IZR_INZ, Z2Nat.id by lia. rewrite opp_IZR.
    f_equal. ring.
Qed.

Lemma sin_turns (x : R) (k : Z) : sin (x + 2 * IZR k * PI) = sin x.
Proof.
  destruct (Z_le_gt_dec 0 k) as [Hk|Hk].
  - rewrite <- (Z2Nat.id k Hk), <- INR_IZR_INZ. apply sin_period.
  - rewrite <- (sin_period (x + 2 * IZR k * PI) (Z.to_nat (- k))).
    rewrite INR_IZR_INZ, Z2Nat.id by lia. rewrite opp_IZR.
    f_equal. ring.
Qed.

Ltac decide_octant :=
  unfold positionOf;
  repeat match goal with
         | |- context [Rgeb ?a ?b] =>
             first [rewrite (@Rgeb_true a b) by lra
                   | rewrite (@Rgeb_false a b) by lra]
         | |- context [Rltb ?a ?b] =>
             first [rewrite (@Rltb_true a b) by lra
                   | rewrite (@Rltb_false a b) by lra]
         end;
  cbn [orb andb].

(** The label depends on the octant of the normalized angle only. *)
Lemma positionOf_octant (n : R) :
  0 <= n < 360 ->
  (n < 22.5 /\ positionOf n = right)
  \/ (22.5 <= n < 67.5 /\ positionOf n = bottom_right)
  \/ (67.5 <= n < 112.5 /\ positionOf n = bottom)
  \/ (112.5 <= n < 157.5 /\ positionOf n = bottom_left)
  \/ (157.5 <= n < 202.5 /\ positionOf n = left)
  \/ (202.5 <= n < 247.5 /\ positionOf n = top_left)
  \/ (247.5 <= n < 292.5 /\ positionOf n = top)
  \/ (292.5 <= n < 337.5 /\ positionOf n = top_right)
  \/ (337.5 <= n /\ positionOf n = right).
Proof.
  intros Hn.
  destruct (Rlt_le_dec n 22.5);
    [left; split; [lra | decide_octant; reflexivity]|right].
  destruct (Rlt_le_dec n 67.5);
    [left; split; [lra | decide_octant; reflexivity]|right].
  destruct (Rlt_le_dec n 112.5);
    [left; split; [lra | decide_octant; reflexivity]|right].
  destruct (Rlt_le_dec n 157.5);
    [left; split; [lra | decide_octant; reflexivity]|right].
  destruct (Rlt_le_dec n 202.5);
    [left; split; [lra | decide_octant; reflexivity]|right].
  destruct (Rlt_le_dec n 247.5);
    [left; split; [lra | decide_octant; reflexivity]|right].
  destruct (Rlt_le_dec n 292.5);
    [left; split; [lra | decide_octant; reflexivity]|right].
  destruct (Rlt_le_dec n 337.5);
    [left; split; [lra | decide_octant; reflexivity]|right].
  split; [lra | decide_octant; reflexivity].
Qed.

End Angles.

Section CycleExtras.

Import Cycle.
Local Open Scope R_scope.

(** X1. For [total >= 2] and every [0 <= indexBefore < total], the wrap-around
    pair included, the add button is the point of the circle half a step
    clockwise from node [indexBefore]: the point at the angle of that
    node minus [180 / total] degrees. *)
Theorem add_button_half_step (total indexBefore : Z) (radius : R) :
  (2 <= total)%Z -> (0 <= indexBefore < total)%Z ->
  let half := angleInDegrees indexBefore total - 180 / IZR total in
  calculateAddButtonPosition indexBefore total radius
  = mkPoint (400 + radius * cos (half * PI / 180))
            (400 - radius * sin (half * PI / 180)).
Proof.
  intros Ht Hi half. unfold calculateAddButtonPosition.
  replace (total <=? 1)%Z with false by (symmetry; apply Z.leb_gt; lia).
  assert (Hpos : 0 < IZR total) by (apply IZR_total_pos; lia).
  fold (toRadians half). unfold centerX, centerY.
  destruct (Z.eq_dec indexBefore (total - 1)) as [->|Hne].
  - rewrite midAngle_last by lia.
    replace (90 + 180 / IZR total) with (half + 360 * IZR 1).
    + rewrite toRadians_turns, cos_turns, sin_turns. reflexivity.
    + subst half. unfold angleInDegrees. rewrite minus_IZR. field. lra.
  - rewrite midAngle_inner by lia.
    replace ((angleInDegrees indexBefore total
              + angleInDegrees (indexBefore + 1) total) / 2) with half.
    + reflexivity.
    + subst half. unfold angleInDegrees. rewrite plus_IZR. field. lra.
Qed.

Lemma add_button_half_step_witness :
  (2 <= 4)%Z /\ (0 <= 3 < 4)%Z
  /\ calculateAddButtonPosition 3 4 250
     = mkPoint
         (400 + 250 * cos ((angleInDegrees 3 4 - 180 / 4) * PI / 180))
         (400 - 250 * sin ((angleInDegrees 3 4 - 180 / 4) * PI / 180)).
Proof.
  split; [lia|]. split; [lia|].
  apply (@add_button_half_step 4 3 250); lia.
Defined.

(** X2. The label point of a node is 30 further from the center than
    the node itself, at distance [radius + 30], and on the same ray from
    the center (400, 400). *)
Theorem label_outside_circle (total index : Z) (radius : R) :
  (1 <= total)%Z -> 0 <= radius ->
  let p := calculateNodePosition index total radius in
  sqrt ((textX p - 400) * (textX p - 400)
        + (textY p - 400) * (textY p - 400)) = radius + 30
  /\ (textX p - 400) * radius = (x p - 400) * (radius + 30)
  /\ (textY p - 400) * radius = (y p - 400) * (radius + 30).
Proof.
  intros _ Hr p. subst p. unfold calculateNodePosition.
  cbn [x y textX textY].
  set (a := toRadians (angleInDegrees index total)).
  split; [|unfold centerX, centerY; split; ring].
  replace (centerX + radius * cos a + 30 * cos a)
    with (centerX + (radius + 30) * cos a) by ring.
  replace (centerY - radius * sin a + -30 * sin a)
    with (centerY - (radius + 30) * sin a) by ring.
  apply (@on_circle (radius + 30) a). lra.
Qed.

Lemma label_outside_circle_witness :
  (1 <= 3)%Z /\ 0 <= 250
  /\ let p := calculateNodePosition 2 3 250 in
     sqrt ((textX p - 400) * (textX p - 400)
           + (textY p - 400) * (textY p - 400)) = 250 + 30.
Proof.
  split; [lia|]. split; [lra|].
  apply (@label_outside_circle 3 2 250); [lia | lra].
Defined.

(** X3. The angle that [calculateNodePosition] normalizes with
    [((a % 360) + 360) % 360] lies in [0, 360) for every angle, negative
    ones included, differs from the angle by whole turns and so points
    in the same direction. *)
Theorem normalized_angle (deg : R) :
  0 <= normalize deg < 360
  /\ (exists k : Z, normalize deg = deg + 360 * IZR k)
  /\ cos (toRadians (normalize deg)) = cos (toRadians deg)
  /\ sin (toRadians (normalize deg)) = sin (toRadians deg).
Proof.
  split; [apply normalize_range|].
  destruct (normalize_congruent deg) as (k & E).
  split; [now exists k|].
  rewrite E, toRadians_turns. split; [apply cos_turns | apply sin_turns].
Qed.

(** X4. A label whose text is aligned to the right belongs to a node in
    the left half of the container ([x < 400]) and a label whose text is
    aligned to the left to a node in the right half ([x > 400]), so the
    text always ends, or starts, on the side of the circle. *)
Theorem label_alignment_side (total index : Z) (radius : R) :
  (1 <= total)%Z -> 0 < radius ->
  let p := calculateNodePosition index total radius in
  (textAlign (position p) = AlignRight -> x p < 400)
  /\ (textAlign (position p) = AlignLeft -> 400 < x p).
Proof.
  intros _ Hr p. subst p. unfold calculateNodePosition.
  cbn [x position]. unfold centerX.
  set (deg := angleInDegrees index total).
  pose proof (normalize_range deg) as Hn.
  destruct (normalize_congruent deg) as (k & E).
  assert (Hcos : cos (toRadians deg) = cos (toRadians (normalize deg)))
    by (rewrite E, toRadians_turns; symmetry; apply cos_turns).
  rewrite Hcos. clear Hcos E.
  set (n := normalize deg) in *.
  assert (Hpi : 0 < PI) by apply PI_RGT_0.
  assert (Hleft : 112.5 <= n < 247.5 -> cos (toRadians n) < 0).
  { intros Hb. apply cos_lt_0; unfold toRadians; nra. }
  assert (Hright : n < 67.5 \/ 292.5 <= n -> 0 < cos (toRadians n)).
  { intros [Hb|Hb].
    - apply cos_gt_0; unfold toRadians; nra.
    - replace (toRadians n)
        with (toRadians (n + 360 * IZR (-1)) + 2 * IZR 1 * PI)
        by (unfold toRadians; field).
      rewrite cos_turns. apply cos_gt_0; unfold toRadians; nra. }
  destruct (positionOf_octant Hn)
    as [[B ->]|[[B ->]|[[B ->]|[[B ->]|[[B ->]|[[B ->]|[[B ->]|[[B ->]
       |[B ->]]]]]]]]];
    cbn [textAlign]; split; intros Hal; try discriminate Hal.
  all: try (assert (C : cos (toRadians n) < 0) by (apply Hleft; lra); nra).
  all: assert (C : 0 < cos (toRadians n)) by (apply Hright; lra); nra.
Qed.

Lemma label_alignment_side_witness :
  (1 <= 4)%Z /\ 0 < 250
  /\ let p := calculateNodePosition 3 4 250 in
     (textAlign (position p) = AlignRight -> x p < 400).
Proof.
  split; [lia|]. split; [lra|].
  apply (@label_alignment_side 4 3 250); [lia | lra].
Defined.

End CycleExtras.

Section CycleRender.

Import Cycle.
Local Open Scope R_scope.

(** X5. For every [total >= 1] the first node is at the top of the
    circle, straight above the center: the point (400, 400 - radius),
    with its label at (400, 400 - radius - 30); its position name is
    ['bottom'] and its text is centered. *)
Theorem first_node_on_top (total : Z) (radius : R) :
  (1 <= total)%Z ->
  let p := calculateNodePosition 0 total radius in
  x p = 400 /\ y p = 400 - radius
  /\ textX p = 400 /\ textY p = 400 - radius - 30
  /\ position p = bottom /\ textAlign (position p) = AlignCenter.
Proof.
  intros _ p. subst p. unfold calculateNodePosition.
  cbn [x y textX textY position].
  replace (angleInDegrees 0 total) with 90
    by (unfold angleInDegrees; ring).
  replace (toRadians 90) with (PI / 2) by (unfold toRadians; field).
  rewrite cos_PI2, sin_PI2. unfold centerX, centerY.
  assert (N : normalize 90 = 90).
  { rewrite (@normalize_unique 90 0); [ring | lra]. }
  assert (P : positionOf (normalize 90) = bottom).
  { rewrite N.
    assert (R90 : 0 <= 90 < 360) by lra.
    pose proof (positionOf_octant R90) as H.
    decompose [or and] H; first [lra | assumption]. }
  rewrite P. cbn [textAlign].
  repeat split; ring.
Qed.

Lemma first_node_on_top_witness :
  (1 <= 1)%Z
  /\ let p := calculateNodePosition 0 1 250 in
     x p = 400 /\ y p = 400 - 250.
Proof.
  split; [lia|].
  destruct (@first_node_on_top 1 250 ltac:(lia)) as (Hx & Hy & _).
  split; [exact Hx | exact Hy].
Defined.

(** X6. The layout is symmetric about the vertical line through the
    center: for [1 <= index < total], node [total - index] is the mirror
    image of node [index], at the same height and at the opposite
    horizontal offset from 400. *)
Theorem layout_mirror (total index : Z) (radius : R) :
  (1 <= index < total)%Z ->
  let p := calculateNodePosition index total radius in
  let q := calculateNodePosition (total - index) total radius in
  x q - 400 = - (x p - 400) /\ y q = y p.
Proof.
  intros Hi p q. subst p q. unfold calculateNodePosition. cbn [x y].
  assert (Hpos : 0 < IZR total) by (apply IZR_total_pos; lia).
  set (a := toRadians (angleInDegrees index total)).
  replace (toRadians (angleInDegrees (total - index) total))
    with (- (a + PI)).
  - rewrite cos_neg, sin_neg, neg_cos, neg_sin.
    unfold centerX, centerY. split; ring.
  - subst a. unfold toRadians, angleInDegrees. rewrite minus_IZR.
    field. lra.
Qed.

Lemma layout_mirror_witness :
  (1 <= 1 < 3)%Z
  /\ let p := calculateNodePosition 1 3 250 in
     let q := calculateNodePosition (3 - 1) 3 250 in
     x q - 400 = - (x p - 400) /\ y q = y p.
Proof.
  split; [lia|]. apply (@layout_mirror 3 1 250). lia.
Defined.

(** X7. The render draws one add button per node, none for an empty
    sequence; for every [k] below the number of nodes the button of
    index [k] is drawn at [calculateAddButtonPosition k n] and a click
    on it puts the new node at index [k + 1], right after node [k],
    keeping every node in order. *)
Theorem cycle_button_inserts_after (ns : list CycleNode) :
  length (renderAddButtons ns) = length ns
  /\ forall k : nat,
       (k < length ns)%nat ->
       nth_error (renderAddButtons ns) k
       = Some (calculateAddButtonPosition (Z.of_nat k)
                 (Z.of_nat (length ns)) 250,
               Z.of_nat k)
       /\ inserted_at (S k) (newNode ns) ns
            (handleAddNode ns (Z.of_nat k)).
Proof.
  unfold renderAddButtons.
  destruct (0 <? Z.of_nat (length ns))%Z eqn:E.
  - split; [now rewrite length_map, length_seq|].
    intros k K. split.
    + rewrite nth_error_map, nth_error_seq.
      replace (k <? length ns)%nat with true
        by (symmetry; apply Nat.ltb_lt; exact K).
      reflexivity.
    + unfold handleAddNode, Js.splice_insert.
      rewrite splice_start_id by lia.
      replace (Z.to_nat (Z.of_nat k + 1)) with (S k) by lia.
      apply insert_at_split. lia.
  - apply Z.ltb_ge in E.
    assert (L : length ns = 0%nat) by lia. rewrite L.
    split; [reflexivity|]. intros k K. lia.
Qed.

Lemma cycle_button_inserts_after_witness :
  let ns := [mkCycleNode 1 "Plan" "p"; mkCycleNode 2 "Do" "d"] in
  length (renderAddButtons ns) = 2%nat
  /\ (1 < length ns)%nat
  /\ nth_error (renderAddButtons ns) 1
     = Some (calculateAddButtonPosition 1 2 250, 1%Z)
  /\ inserted_at 2 (newNode ns) ns (handleAddNode ns 1).
Proof.
  intros ns.
  destruct (cycle_button_inserts_after ns) as (L & B).
  assert (K : (1 < length ns)%nat) by (cbn; lia).
  split; [exact L|]. split; [exact K|].
  exact (B 1%nat K).
Defined.

End CycleRender.

(* ------------------------------------------------------------------ *)
(** * Further properties of the node store *)

Section MoreArrayFacts.

Context {A : Type}.
Implicit Types (xs ys : list A) (p : A -> bool).

Lemma exchanged_split (i : nat) xs (a b : A) :
  nth_error xs i = Some a -> nth_error xs (S i) = Some b ->
  exchanged_at i xs (firstn i xs ++ b :: a :: skipn (S (S i)) xs).
Proof.
  intros Ha Hb.
  assert (Hi : (S i < length xs)%nat)
    by (apply nth_error_Some; congruence).
  assert (Hlen : length (firstn i xs) = i) by (apply firstn_length_le; lia).
  repeat split.
  - rewrite (neighbours_split i xs Ha Hb) at 3.
    rewrite !length_app. reflexivity.
  - rewrite nth_error_app2 by lia. now rewrite Hlen, Nat.sub_diag, Hb.
  - rewrite nth_error_app2 by lia.
    replace (S i - length (firstn i xs))%nat with 1%nat by lia.
    now rewrite Ha.
  - intros k Hk1 Hk2.
    destruct (Nat.lt_ge_cases k i) as [Hlt|Hge].
    + rewrite nth_error_app1 by lia. rewrite nth_error_firstn.
      now replace (k <? i)%nat with true by (symmetry; apply Nat.ltb_lt; lia).
    + rewrite nth_error_app2 by lia. rewrite Hlen.
      replace (k - i)%nat with (S (S (k - i - 2))) by lia.
      cbn [nth_error]. rewrite nth_error_skipn. f_equal. lia.
Qed.

Lemma findIndex_first p xs (i : nat) :
  Js.findIndex p xs = Some i ->
  forall x, In x (firstn i xs) -> p x = false.
Proof.
  revert i. induction xs as [|y ys IH]; intros i; cbn; [discriminate|].
  destruct (p y) eqn:Py.
  - intros [= <-] x [].
  - destruct (Js.findIndex p ys) as [j|]; [|discriminate].
    intros [= <-] x [<-|Hin]; [exact Py | now apply (IH j)].
Qed.

Lemma findIndex_app p xs ys :
  (forall x, In x xs -> p x = false) ->
  Js.findIndex p (xs ++ ys)
  = option_map (fun j => (length xs + j)%nat) (Js.findIndex p ys).
Proof.
  induction xs as [|x xs IH]; intros H; cbn.
  - now destruct (Js.findIndex p ys).
  - rewrite (H x (or_introl eq_refl)).
    rewrite IH by (intros z Hz; apply H; now right).
    now destruct (Js.findIndex p ys).
Qed.

Lemma firstn_skipn_at (l1 l2 : list A) (a : A) :
  firstn (length l1) (l1 ++ a :: l2) = l1
  /\ skipn (S (length l1)) (l1 ++ a :: l2) = l2.
Proof.
  split.
  - rewrite firstn_app, Nat.sub_diag, firstn_all. cbn. apply app_nil_r.
  - rewrite skipn_app.
    replace (S (length l1) - length l1)%nat with 1%nat by lia.
    rewrite skipn_all2 by lia. reflexivity.
Qed.

End MoreArrayFacts.

Section Moves.

Import ListArt.
Local Open Scope Z_scope.

Lemma indexOfId_nth (nodeId : Z) (ns : list Node) (i : nat) :
  indexOfId nodeId ns = Some i ->
  exists n, nth_error ns i = Some n /\ id n = nodeId.
Proof.
  intros H. apply findIndex_Some in H as (n & Hn & E).
  exists n. split; [exact Hn | now apply Z.eqb_eq].
Qed.

(** X8. When the node is found at index [i] and is not the last one,
    [handleMoveRight] exchanges it with its right neighbour and leaves
    every other node in place; the moved node is pressed, no text is
    edited and the container is not active. When it is the last one the
    state is unchanged. *)
Theorem move_right_spec (s : State) (nodeId : Z) (i : nat) :
  indexOfId nodeId (nodes s) = Some i ->
  ((S i < length (nodes s))%nat ->
   exists s', handleMoveRight s nodeId = Some s'
              /\ exchanged_at i (nodes s) (nodes s')
              /\ pressedNode s' = Some nodeId
              /\ editingTitle s' = None /\ editingBody s' = None
              /\ containerActive s' = false)
  /\ (S i = length (nodes s) -> handleMoveRight s nodeId = Some s).
Proof.
  intros Hidx. unfold handleMoveRight. rewrite Hidx. split.
  - intros Hlt.
    replace (Z.of_nat i <? Z.of_nat (length (nodes s)) - 1) with true
      by (symmetry; apply Z.ltb_lt; lia).
    eexists. split; [reflexivity|].
    cbn [afterMove nodes pressedNode editingTitle editingBody
         containerActive setNodes setPressedNode setContainerActive
         setEditingTitle setEditingBody].
    split; [|repeat split].
    destruct (indexOfId_nth _ _ Hidx) as (a & Ha & _).
    destruct (nth_error (nodes s) (S i)) as [b|] eqn:Hb;
      [|apply nth_error_None in Hb; lia].
    replace (i + 1)%nat with (S i) by lia.
    unfold Js.swap. rewrite Ha, Hb.
    rewrite (proj1 (set_nth_neighbours i (nodes s) Ha Hb)).
    now apply exchanged_split.
  - intros Hlast.
    now replace (Z.of_nat i <? Z.of_nat (length (nodes s)) - 1) with false
      by (symmetry; apply Z.ltb_ge; lia).
Qed.

Lemma move_right_spec_witness :
  indexOfId 2 sample = Some 1%nat
  /\ exists s', handleMoveRight (initialState sample) 2 = Some s'
                /\ nodes s' = [dogs; birds; cats]
                /\ exchanged_at 1 sample (nodes s').
Proof.
  assert (H : indexOfId 2 (nodes (initialState sample)) = Some 1%nat)
    by reflexivity.
  split; [exact H|].
  destruct (proj1 (@move_right_spec (initialState sample) 2 1%nat H))
    as (s' & E & X & _); [cbn; lia|].
  exists s'. split; [exact E|]. split; [|exact X].
  cbn in E. injection E as <-. reflexivity.
Defined.

(** X9. When the node is found at an index [i + 1 > 0],
    [handleMoveLeft] exchanges it with its left neighbour and leaves
    every other node in place; the moved node is pressed, no text is
    edited and the container is not active. When the node is the first
    one, or its id is not in the sequence, the state is unchanged. *)
Theorem move_left_spec (s : State) (nodeId : Z) :
  (forall i : nat,
      indexOfId nodeId (nodes s) = Some (S i) ->
      let s' := handleMoveLeft s nodeId in
      exchanged_at i (nodes s) (nodes s')
      /\ pressedNode s' = Some nodeId
      /\ editingTitle s' = None /\ editingBody s' = None
      /\ containerActive s' = false)
  /\ (indexOfId nodeId (nodes s) = Some 0%nat
      \/ indexOfId nodeId (nodes s) = None ->
      handleMoveLeft s nodeId = s).
Proof.
  unfold handleMoveLeft. split.
  - intros i Hidx. rewrite Hidx. cbn [Nat.ltb Nat.leb].
    cbn [afterMove nodes pressedNode editingTitle editingBody
         containerActive setNodes setPressedNode setContainerActive
         setEditingTitle setEditingBody].
    split; [|repeat split].
    destruct (indexOfId_nth _ _ Hidx) as (b & Hb & _).
    destruct (nth_error (nodes s) i) as [a|] eqn:Ha.
    + replace (S i - 1)%nat with i by lia.
      unfold Js.swap. rewrite Ha, Hb.
      rewrite (proj2 (set_nth_neighbours i (nodes s) Ha Hb)).
      now apply exchanged_split.
    + apply nth_error_None in Ha.
      assert (S i < length (nodes s))%nat
        by (apply nth_error_Some; congruence).
      lia.
  - intros [-> | ->]; reflexivity.
Qed.

Lemma move_left_spec_witness :
  indexOfId 2 sample = Some 1%nat
  /\ nodes (handleMoveLeft (initialState sample) 2) = [cats; dogs; birds]
  /\ exchanged_at 0 sample (nodes (handleMoveLeft (initialState sample) 2)).
Proof.
  assert (H : indexOfId 2 (nodes (initialState sample)) = Some 1%nat)
    by reflexivity.
  split; [exact H|]. split; [reflexivity|].
  apply (proj1 (move_left_spec (initialState sample) 2) 0%nat H).
Defined.

End Moves.

Section MoveRoundTrip.

Import ListArt.
Local Open Scope Z_scope.

Lemma indexOfId_after_swap (nodeId : Z) (l1 l2 : list Node) (a b : Node) :
  (forall x, In x l1 -> (id x =? nodeId) = false) ->
  id a = nodeId -> id b <> nodeId ->
  indexOfId nodeId (l1 ++ a :: b :: l2) = Some (length l1)
  /\ indexOfId nodeId (l1 ++ b :: a :: l2) = Some (S (length l1)).
Proof.
  intros H1 Ha Hb. unfold indexOfId.
  rewrite !findIndex_app by exact H1. cbn.
  apply Z.eqb_eq in Ha. apply Z.eqb_neq in Hb. rewrite Ha, Hb. cbn.
  split; f_equal; lia.
Qed.

Lemma swap_split (i : nat) (ns : list Node) (a b : Node) :
  nth_error ns i = Some a -> nth_error ns (S i) = Some b ->
  exists l1 l2,
    length l1 = i /\ ns = l1 ++ a :: b :: l2
    /\ Js.swap i (S i) ns = l1 ++ b :: a :: l2
    /\ Js.swap (S i) i ns = l1 ++ b :: a :: l2.
Proof.
  intros Ha Hb.
  exists (firstn i ns), (skipn (S (S i)) ns).
  assert (Hi : (S i < length ns)%nat) by (apply nth_error_Some; congruence).
  split; [apply firstn_length_le; lia|].
  split; [now apply neighbours_split|].
  destruct (set_nth_neighbours i ns Ha Hb) as [E1 E2].
  unfold Js.swap. now rewrite Ha, Hb, E1, E2.
Qed.

Lemma swap_middle (l1 l2 : list Node) (a b : Node) :
  Js.swap (length l1) (S (length l1)) (l1 ++ a :: b :: l2)
  = l1 ++ b :: a :: l2
  /\ Js.swap (S (length l1)) (length l1) (l1 ++ a :: b :: l2)
     = l1 ++ b :: a :: l2.
Proof.
  assert (Ha : nth_error (l1 ++ a :: b :: l2) (length l1) = Some a).
  { rewrite nth_error_app2 by lia. now rewrite Nat.sub_diag. }
  assert (Hb : nth_error (l1 ++ a :: b :: l2) (S (length l1)) = Some b).
  { rewrite nth_error_app2 by lia.
    now replace (S (length l1) - length l1)%nat with 1%nat by lia. }
  destruct (set_nth_neighbours (length l1) _ Ha Hb) as [E1 E2].
  assert (F : firstn (length l1) (l1 ++ a :: b :: l2) = l1)
    by apply (proj1 (firstn_skipn_at l1 (b :: l2) a)).
  assert (K : skipn (S (S (length l1))) (l1 ++ a :: b :: l2) = l2).
  { replace (l1 ++ a :: b :: l2) with ((l1 ++ [a]) ++ b :: l2)
      by (now rewrite <- app_assoc).
    replace (S (length l1)) with (length (l1 ++ [a]))
      by (rewrite length_app; cbn; lia).
    apply (proj2 (firstn_skipn_at (l1 ++ [a]) l2 b)). }
  unfold Js.swap. rewrite Ha, Hb, E1, E2, F, K. now split.
Qed.

(** X10. With pairwise-distinct ids, a move to the right followed by a
    move to the left of the same node restores the node sequence when
    the node is not the last one, and a move to the left followed by a
    move to the right restores it when the node is not the first one. *)
Theorem move_round_trip (s : State) (nodeId : Z) (i : nat) :
  distinctIds (nodes s) ->
  indexOfId nodeId (nodes s) = Some i ->
  ((S i < length (nodes s))%nat ->
   exists s1, handleMoveRight s nodeId = Some s1
              /\ nodes (handleMoveLeft s1 nodeId) = nodes s)
  /\ ((0 < i)%nat ->
      exists s2, handleMoveRight (handleMoveLeft s nodeId) nodeId = Some s2
                 /\ nodes s2 = nodes s).
Proof.
  intros Hnd Hidx.
  destruct (indexOfId_nth _ _ Hidx) as (a & Ha & Hida).
  pose proof (findIndex_first _ _ Hidx) as Hfirst. cbn beta in Hfirst.
  split.
  - intros Hlt.
    destruct (nth_error (nodes s) (S i)) as [b|] eqn:Hb;
      [|apply nth_error_None in Hb; lia].
    destruct (swap_split i (nodes s) Ha Hb) as (l1 & l2 & Hl & E & Sw & _).
    assert (Hidb : id b <> nodeId).
    { unfold distinctIds in Hnd. rewrite E, map_app in Hnd. cbn in Hnd.
      apply NoDup_remove_2 in Hnd. intros Eb. apply Hnd.
      apply in_app_iff. right. left. congruence. }
    assert (H1 : forall x, In x l1 -> (id x =? nodeId) = false).
    { intros x Hx. apply Hfirst. rewrite E, <- Hl.
      now rewrite (proj1 (firstn_skipn_at l1 (b :: l2) a)). }
    destruct (@indexOfId_after_swap nodeId l1 l2 a b H1 Hida Hidb)
      as [_ Iafter].
    unfold handleMoveRight. rewrite Hidx.
    replace (Z.of_nat i <? Z.of_nat (length (nodes s)) - 1) with true
      by (symmetry; apply Z.ltb_lt; lia).
    eexists. split; [reflexivity|].
    unfold handleMoveLeft.
    cbn [afterMove nodes setNodes setPressedNode setContainerActive
         setEditingTitle setEditingBody].
    replace (i + 1)%nat with (S i) by lia. rewrite Sw, Iafter.
    cbn [Nat.ltb Nat.leb].
    cbn [afterMove nodes setNodes setPressedNode setContainerActive
         setEditingTitle setEditingBody].
    replace (S (length l1) - 1)%nat with (length l1) by lia.
    rewrite (proj2 (swap_middle l1 l2 b a)). now rewrite E.
  - intros Hpos. destruct i as [|j]; [lia|].
    destruct (nth_error (nodes s) j) as [b|] eqn:Hb.
    2:{ apply nth_error_None in Hb.
        assert (S j < length (nodes s))%nat
          by (apply nth_error_Some; congruence).
        lia. }
    destruct (swap_split j (nodes s) Hb Ha) as (l1 & l2 & Hl & E & _ & Sw).
    assert (Hidb : id b <> nodeId).
    { intros Eb. apply Z.eqb_eq in Eb.
      rewrite (Hfirst b) in Eb; [discriminate|].
      rewrite E, <- Hl.
      replace (S (length l1)) with (length (l1 ++ [b])%list)
        by (rewrite length_app; cbn; lia).
      replace (l1 ++ b :: a :: l2) with ((l1 ++ [b]) ++ a :: l2)
        by (now rewrite <- app_assoc).
      rewrite (proj1 (firstn_skipn_at (l1 ++ [b]) l2 a)).
      apply in_app_iff. right. now left. }
    assert (H1 : forall x, In x l1 -> (id x =? nodeId) = false).
    { intros x Hx. apply Hfirst. rewrite E, <- Hl.
      replace (S (length l1)) with (length (l1 ++ [b])%list)
        by (rewrite length_app; cbn; lia).
      replace (l1 ++ b :: a :: l2) with ((l1 ++ [b]) ++ a :: l2)
        by (now rewrite <- app_assoc).
      rewrite (proj1 (firstn_skipn_at (l1 ++ [b]) l2 a)).
      apply in_app_iff. now left. }
    destruct (@indexOfId_after_swap nodeId l1 l2 a b H1 Hida Hidb)
      as [Iafter _].
    unfold handleMoveLeft. rewrite Hidx. cbn [Nat.ltb Nat.leb].
    unfold handleMoveRight.
    cbn [afterMove nodes setNodes setPressedNode setContainerActive
         setEditingTitle setEditingBody].
    replace (S j - 1)%nat with j by lia. rewrite Sw, Iafter.
    replace (Z.of_nat (length l1)
             <? Z.of_nat (length (l1 ++ a :: b :: l2)) - 1) with true
      by (symmetry; apply Z.ltb_lt; rewrite length_app; cbn; lia).
    eexists. split; [reflexivity|].
    cbn [afterMove nodes setNodes setPressedNode setContainerActive
         setEditingTitle setEditingBody].
    replace (length l1 + 1)%nat with (S (length l1)) by lia.
    rewrite (proj1 (swap_middle l1 l2 a b)). now rewrite E.
Qed.

Lemma move_round_trip_witness :
  distinctIds sample /\ indexOfId 1 sample = Some 0%nat
  /\ exists s1, handleMoveRight (initialState sample) 1 = Some s1
                /\ nodes (handleMoveLeft s1 1) = sample.
Proof.
  assert (D : distinctIds (nodes (initialState sample))).
  { unfold distinctIds. cbn. repeat constructor; cbn; intuition discriminate. }
  assert (I : indexOfId 1 (nodes (initialState sample)) = Some 0%nat)
    by reflexivity.
  split; [exact D|]. split; [exact I|].
  apply (proj1 (@move_round_trip (initialState sample) 1 0%nat D I)).
  cbn. lia.
Defined.

End MoveRoundTrip.

Section DeleteFacts.

Import ListArt.
Local Open Scope Z_scope.

Lemma filter_other_ids (nodeId : Z) (l : list Node) :
  ~ In nodeId (map id l) ->
  filter (fun node => negb (id node =? nodeId)) l = l.
Proof.
  intros Hnot. apply filter_all. intros n Hn.
  apply negb_true_iff, Z.eqb_neq. intros E. apply Hnot.
  apply in_map_iff. now exists n.
Qed.

Lemma filter_at (l1 l2 : list Node) (n : Node) :
  NoDup (map id (l1 ++ n :: l2)) ->
  filter (fun node => negb (id node =? id n)) (l1 ++ n :: l2) = l1 ++ l2.
Proof.
  intros Hnd. rewrite map_app in Hnd. cbn in Hnd.
  apply NoDup_remove_2 in Hnd.
  rewrite filter_app. cbn. rewrite Z.eqb_refl. cbn.
  rewrite !filter_other_ids; [reflexivity| |];
    intros Hin; apply Hnd, in_app_iff; [now right | now left].
Qed.

(** X11. With pairwise-distinct ids and at least two nodes, deleting the
    id of the node at index [i] removes exactly that node: the nodes
    before and after it stay in order, the sequence is one shorter, the
    id is gone, and no node is pressed or edited afterwards. *)
Theorem delete_removes_one (s : State) (nodeId : Z) (i : nat) (n : Node) :
  distinctIds (nodes s) ->
  nth_error (nodes s) i = Some n -> id n = nodeId ->
  (2 <= length (nodes s))%nat ->
  let s' := handleDeleteNode s nodeId in
  nodes s' = firstn i (nodes s) ++ skipn (S i) (nodes s)
  /\ S (length (nodes s')) = length (nodes s)
  /\ ~ In nodeId (map id (nodes s'))
  /\ pressedNode s' = None /\ editingTitle s' = None
  /\ editingBody s' = None.
Proof.
  intros Hnd Hn Hid Hlen s'. subst s'. unfold handleDeleteNode.
  replace (Z.of_nat (length (nodes s)) <=? 1) with false
    by (symmetry; apply Z.leb_gt; lia).
  cbn [nodes pressedNode editingTitle editingBody setNodes setPressedNode
       setEditingTitle setEditingBody].
  destruct (nth_error_split _ _ Hn) as (l1 & l2 & E & Hl).
  unfold distinctIds in Hnd. rewrite E in Hnd |- *. subst nodeId i.
  rewrite (filter_at l1 l2 n Hnd).
  rewrite (proj1 (firstn_skipn_at l1 l2 n)),
          (proj2 (firstn_skipn_at l1 l2 n)).
  split; [reflexivity|]. split; [rewrite !length_app; cbn; lia|].
  split; [|repeat split].
  rewrite map_app in Hnd. cbn in Hnd. apply NoDup_remove_2 in Hnd.
  now rewrite map_app.
Qed.

Lemma delete_removes_one_witness :
  distinctIds sample /\ nth_error sample 1 = Some cats /\ id cats = 2
  /\ (2 <= length sample)%nat
  /\ nodes (handleDeleteNode (initialState sample) 2) = [dogs; birds].
Proof.
  assert (D : distinctIds (nodes (initialState sample))).
  { unfold distinctIds. cbn. repeat constructor; cbn; intuition discriminate. }
  split; [exact D|]. split; [reflexivity|]. split; [reflexivity|].
  split; [cbn; lia|].
  destruct (@delete_removes_one (initialState sample) 2 1%nat cats D
              eq_refl eq_refl ltac:(cbn; lia)) as (E & _).
  exact E.
Defined.

Lemma delete_keeps_nonempty (s : State) (nodeId : Z) :
  distinctIds (nodes s) -> nodes s <> [] ->
  nodes (handleDeleteNode s nodeId) <> [].
Proof.
  intros Hnd Hne. unfold handleDeleteNode.
  destruct (Z.of_nat (length (nodes s)) <=? 1) eqn:L; [exact Hne|].
  apply Z.leb_gt in L.
  cbn [nodes setNodes setPressedNode setEditingTitle setEditingBody].
  destruct (in_dec Z.eq_dec nodeId (map id (nodes s))) as [Hin|Hnot].
  - apply in_map_iff in Hin as (n & Hid & Hin).
    apply In_nth_error in Hin as (i & Hi).
    destruct (nth_error_split _ _ Hi) as (l1 & l2 & E & _).
    unfold distinctIds in Hnd. rewrite E in Hnd, L |- *. subst nodeId.
    rewrite (filter_at l1 l2 n Hnd).
    rewrite length_app in L. cbn in L.
    destruct l1, l2; cbn in *; try discriminate; lia.
  - now rewrite filter_other_ids.
Qed.

Lemma apply_keeps_nonempty (s s' : State) (op : Trace.Op) :
  distinctIds (nodes s) -> nodes s <> [] ->
  Trace.apply s op = Some s' -> nodes s' <> [].
Proof.
  intros Hnd Hne.
  assert (Hlen : forall l : list Node,
             length l = length (nodes s) -> l <> []).
  { intros l El ->. destruct (nodes s); [now apply Hne | discriminate]. }
  destruct op as [position|nodeId|nodeId|nodeId|nodeId newTitle
                 |nodeId newBody|closureNodes nodeId file
                 |targetNodeId outcome]; cbn [Trace.apply].
  - intros [= <-]. cbn. unfold Js.splice_insert.
    intros E. apply app_eq_nil in E as [_ E]. discriminate.
  - intros [= <-]. now apply delete_keeps_nonempty.
  - intros [= <-]. apply Hlen, Permutation_length, moveLeft_perm.
  - intros H. eapply Hlen, Permutation_length, moveRight_perm, H.
  - intros [= <-]. cbn. apply Hlen, length_map.
  - intros [= <-]. cbn. apply Hlen, length_map.
  - intros [= <-]. unfold handleFileSelection.
    destruct (findNode nodeId closureNodes); [|exact Hne].
    destruct file as [f|]; [|exact Hne].
    destruct (negb (String.prefix "image/" (fileType f))); [exact Hne|].
    cbn -[setImageOf]. apply Hlen. unfold setImageOf. apply length_map.
  - intros [= <-]. unfold generateSettled.
    destruct (generateImageForTitle outcome); cbn -[setImageOf];
      apply Hlen; unfold setImageOf; apply length_map.
Qed.

(** X12. Starting from a non-empty sequence with pairwise-distinct ids
    and room below 2^53 for the inserts (every id is above -2^53 and
    the greatest id plus the number of inserts is at most 2^53), no
    sequence of operations (insert, delete, move, text or image update)
    ever empties the node sequence: [handleDeleteNode] refuses to delete
    the last node. *)
Theorem sequence_never_emptied (ops : list Trace.Op) :
  forall s s' : State,
    distinctIds (nodes s) ->
    headroom (Trace.countInserts ops) (map id (nodes s)) ->
    nodes s <> [] ->
    Trace.run ops s = Some s' -> nodes s' <> [].
Proof.
  induction ops as [|op ops IH]; intros s s' Hnd Hh Hne; cbn.
  - now intros [= <-].
  - destruct (Trace.apply s op) as [s1|] eqn:E; [|discriminate].
    cbn [Trace.countInserts] in Hh.
    pose proof (countInserts_nonneg ops) as Hk.
    apply IH.
    + eapply apply_keeps_distinct; [|exact Hnd|exact E].
      intros E1. rewrite E1 in Hh.
      replace (1 + Trace.countInserts ops)
        with (Trace.countInserts ops + 1) in Hh by lia.
      exact (headroom_is_safe Hh Hk).
    + now apply apply_keeps_headroom with s op.
    + eapply apply_keeps_nonempty; eassumption.
Qed.

Lemma sequence_never_emptied_witness :
  let ops := [Trace.Delete 1; Trace.Delete 2; Trace.Delete 3;
              Trace.Delete 3] in
  distinctIds sample
  /\ headroom (Trace.countInserts ops) (map id sample)
  /\ sample <> []
  /\ exists s', Trace.run ops (initialState sample) = Some s'
                /\ nodes s' = [birds] /\ nodes s' <> [].
Proof.
  intros ops.
  assert (D : distinctIds (nodes (initialState sample))).
  { unfold distinctIds. cbn. repeat constructor; cbn; intuition discriminate. }
  assert (R : headroom (Trace.countInserts ops)
                (map id (nodes (initialState sample)))).
  { split; [unfold Js.twoTo53; cbn; lia|].
    repeat constructor; unfold Js.twoTo53; cbn; lia. }
  assert (N : nodes (initialState sample) <> []) by discriminate.
  split; [exact D|]. split; [exact R|]. split; [exact N|].
  eexists. split; [reflexivity|]. split; [reflexivity|].
  apply (@sequence_never_emptied ops (initialState sample) _ D R N).
  reflexivity.
Defined.

(** X13. When every id is a safe integer (below 2^53 in magnitude),
    deleting the node that [handleAddClick] has just inserted, at
    whatever position, gives back the node sequence from before the
    insert, provided that sequence was not empty; after an insert into
    the empty sequence the delete is refused and the new node stays. *)
Theorem insert_then_delete (s : State) (position : Z) :
  let s' := handleDeleteNode (handleAddClick s position)
              (newId (nodes s)) in
  (Forall Js.safeInteger (map id (nodes s)) ->
   nodes s <> [] -> nodes s' = nodes s)
  /\ (nodes s = [] -> nodes s' = [newNode []]).
Proof.
  intros s'. subst s'. split.
  - intros Hsafe Hne. unfold handleDeleteNode, handleAddClick.
    cbn [nodes setNodes setPressedNode setEditingTitle setEditingBody
         setContainerActive].
    destruct (splice_insert_split (nodes s) position (newNode (nodes s)))
      as (p & _ & Hp & E).
    rewrite E.
    replace (Z.of_nat (length (firstn p (nodes s)
                               ++ newNode (nodes s) :: skipn p (nodes s)))
             <=? 1) with false.
    + rewrite filter_app. cbn [filter id newNode].
      rewrite Z.eqb_refl. cbn [negb].
      assert (Hnot : ~ In (newId (nodes s)) (map id (nodes s)))
        by now apply Forall_lt_not_In, list_newId_above.
      rewrite !filter_other_ids.
      * apply firstn_skipn.
      * intros Hin. apply Hnot.
        apply in_map_iff in Hin as (n & Hid & Hin).
        apply in_map_iff. exists n. split; [exact Hid|].
        rewrite <- (firstn_skipn p (nodes s)). apply in_app_iff. now right.
      * intros Hin. apply Hnot.
        apply in_map_iff in Hin as (n & Hid & Hin).
        apply in_map_iff. exists n. split; [exact Hid|].
        rewrite <- (firstn_skipn p (nodes s)). apply in_app_iff. now left.
    + symmetry. apply Z.leb_gt. rewrite length_app. cbn [length].
      assert (length (firstn p (nodes s)) + length (skipn p (nodes s))
              = length (nodes s))%nat
        by (rewrite <- length_app; now rewrite firstn_skipn).
      destruct (nodes s); [now contradiction Hne | cbn in *; lia].
  - intros Hnil. unfold handleDeleteNode, handleAddClick.
    cbn [nodes setNodes setPressedNode setEditingTitle setEditingBody
         setContainerActive].
    rewrite Hnil. unfold Js.splice_insert. cbn [length].
    rewrite firstn_nil, skipn_nil. reflexivity.
Qed.

End DeleteFacts.

Section TextAndImage.

Import ListArt.
Local Open Scope string_scope.
Local Open Scope Z_scope.

Lemma insert_then_delete_witness :
  Forall Js.safeInteger (map id (nodes (initialState sample)))
  /\ nodes (initialState sample) <> []
  /\ nodes (handleDeleteNode (handleAddClick (initialState sample) 2)
              (newId (nodes (initialState sample))))
     = nodes (initialState sample).
Proof.
  assert (S : Forall Js.safeInteger
                (map id (nodes (initialState sample)))).
  { repeat constructor; unfold Js.safeInteger, Js.twoTo53; cbn; lia. }
  assert (N : nodes (initialState sample) <> []) by discriminate.
  split; [exact S|]. split; [exact N|].
  exact (proj1 (insert_then_delete (initialState sample) 2) S N).
Defined.

Lemma setNodes_same (s : State) : setNodes (nodes s) s = s.
Proof. now destruct s. Qed.

Lemma map_update_absent (nodeId : Z) (f : Node -> Node) (ns : list Node) :
  ~ In nodeId (map id ns) ->
  map (fun node => if id node =? nodeId then f node else node) ns = ns.
Proof.
  intros Hnot. rewrite <- (map_id ns) at 2. apply map_ext_in.
  intros n Hn. destruct (id n =? nodeId) eqn:E; [|reflexivity].
  exfalso. apply Hnot, in_map_iff. exists n.
  split; [now apply Z.eqb_eq | exact Hn].
Qed.

Lemma find_map_update (nodeId : Z) (f : Node -> Node) (ns : list Node) :
  (forall n, id (f n) = id n) ->
  findNode nodeId
    (map (fun node => if id node =? nodeId then f node else node) ns)
  = option_map f (findNode nodeId ns).
Proof.
  intros Hf. unfold findNode.
  induction ns as [|n ns IH]; cbn; [reflexivity|].
  destruct (id n =? nodeId) eqn:E.
  - rewrite Hf, E. reflexivity.
  - rewrite E. exact IH.
Qed.

(** X14. [handleTitleChange] and [handleBodyChange] update in place: the
    sequence keeps its length and the id, image and position of every
    node, a title change keeps every body and a body change every
    title, and looking the node up afterwards gives the node that was
    found before with the new text. *)
Theorem text_update_in_place (s : State) (nodeId : Z) (text : string) :
  let t := handleTitleChange s nodeId text in
  let b := handleBodyChange s nodeId text in
  map id (nodes t) = map id (nodes s)
  /\ map body (nodes t) = map body (nodes s)
  /\ map image (nodes t) = map image (nodes s)
  /\ findNode nodeId (nodes t)
     = option_map (fun n => withTitle n text) (findNode nodeId (nodes s))
  /\ map id (nodes b) = map id (nodes s)
  /\ map title (nodes b) = map title (nodes s)
  /\ map image (nodes b) = map image (nodes s)
  /\ findNode nodeId (nodes b)
     = option_map (fun n => withBody n text) (findNode nodeId (nodes s)).
Proof.
  intros t b. subst t b. unfold handleTitleChange, handleBodyChange.
  cbn [nodes setNodes].
  repeat split;
    try (rewrite map_map; apply map_ext; intros n;
         now destruct (id n =? nodeId)).
  - apply (@find_map_update nodeId (fun n => withTitle n text)).
    intros n. reflexivity.
  - apply (@find_map_update nodeId (fun n => withBody n text)).
    intros n. reflexivity.
Qed.

(** X15. A text update aimed at an id that is not in the sequence
    changes nothing at all; of two title updates of the same node the
    later one wins; a title update and a body update commute. *)
Theorem text_updates_compose (s : State) (nodeId other : Z)
    (first second : string) :
  (~ In nodeId (map id (nodes s)) ->
   handleTitleChange s nodeId first = s
   /\ handleBodyChange s nodeId first = s)
  /\ handleTitleChange (handleTitleChange s nodeId first) nodeId second
     = handleTitleChange s nodeId second
  /\ handleBodyChange (handleTitleChange s nodeId first) other second
     = handleTitleChange (handleBodyChange s other second) nodeId first.
Proof.
  unfold handleTitleChange, handleBodyChange. split; [|split].
  - intros Hnot. rewrite !map_update_absent by exact Hnot.
    split; apply setNodes_same.
  - unfold setNodes. cbn [nodes hoveredNode pressedNode editingTitle
      editingBody containerActive containerHovered insertPictureMenuOpen
      buttonRect generatingImageForNode alerts].
    f_equal. rewrite map_map. apply map_ext.
    intros n. destruct (id n =? nodeId) eqn:E; cbn [withTitle id];
      rewrite E; reflexivity.
  - unfold setNodes. cbn [nodes hoveredNode pressedNode editingTitle
      editingBody containerActive containerHovered insertPictureMenuOpen
      buttonRect generatingImageForNode alerts].
    f_equal. rewrite !map_map. apply map_ext.
    intros n.
    destruct (id n =? nodeId) eqn:E1, (id n =? other) eqn:E2;
      cbn [withTitle withBody id]; rewrite ?E1, ?E2; reflexivity.
Qed.

Lemma text_updates_compose_witness :
  ~ In 9 (map id (nodes (initialState sample)))
  /\ handleTitleChange (initialState sample) 9 "Fish" = initialState sample.
Proof.
  assert (H : ~ In 9 (map id (nodes (initialState sample))))
    by (cbn; intuition discriminate).
  split; [exact H|].
  apply (proj1 (@text_updates_compose (initialState sample) 9 0
                  "Fish" "" ) H).
Defined.

(** X16. [handleFileSelection] changes nothing when the node is not in
    the sequence of the render that created the handler or when no file
    was chosen; a file whose type does not start with [image/] only
    shows one message and leaves every node as it is; an image file
    sets the image of the nodes with the id to the object URL of the
    file, keeps every other field and node, and shows no message. *)
Theorem file_selection_spec (closureNodes : list Node) (s : State)
    (nodeId : Z) (file : option File) :
  let s' := handleFileSelection closureNodes s nodeId file in
  (findNode nodeId closureNodes = None \/ file = None -> s' = s)
  /\ (forall f,
         findNode nodeId closureNodes <> None -> file = Some f ->
         String.prefix "image/" (fileType f) = false ->
         nodes s' = nodes s
         /\ alerts s'
            = (alerts s
               ++ ["Please select an image file (JPEG, PNG, GIF, etc.)"])%list)
  /\ (forall f,
         findNode nodeId closureNodes <> None -> file = Some f ->
         String.prefix "image/" (fileType f) = true ->
         alerts s' = alerts s
         /\ forall (i : nat) (n : Node),
              nth_error (nodes s) i = Some n ->
              nth_error (nodes s') i
              = Some (if id n =? nodeId
                      then mkNode (id n) (title n) (body n) (objectURL f)
                      else n)).
Proof.
  intros s'. subst s'. unfold handleFileSelection.
  split; [|split].
  - intros [-> | ->]; [reflexivity|].
    now destruct (findNode nodeId closureNodes).
  - intros f Hfound -> Hp.
    destruct (findNode nodeId closureNodes); [|now contradiction Hfound].
    rewrite Hp. cbn. now split.
  - intros f Hfound -> Hp.
    destruct (findNode nodeId closureNodes) as [found|];
      [|now contradiction Hfound].
    rewrite Hp. cbn -[setImageOf]. split; [reflexivity|].
    intros i n Hn. rewrite nth_error_setImageOf, Hn. reflexivity.
Qed.

Lemma file_selection_spec_witness :
  let s := initialState sample in
  findNode 2 sample <> None
  /\ String.prefix "image/" "text/plain" = false
  /\ nodes (handleFileSelection sample s 2
              (Some (mkFile "text/plain" "blob:notes"))) = sample
  /\ String.prefix "image/" "image/png" = true
  /\ nth_error
       (nodes (handleFileSelection sample s 2
                 (Some (mkFile "image/png" "blob:photo")))) 1
     = Some (mkNode 2 "Cats" "Curious creatures" "blob:photo").
Proof.
  intros s.
  assert (F : findNode 2 sample <> None) by discriminate.
  split; [exact F|]. split; [reflexivity|].
  pose proof (@file_selection_spec sample s 2
                (Some (mkFile "text/plain" "blob:notes"))) as (_ & R & _).
  pose proof (@file_selection_spec sample s 2
                (Some (mkFile "image/png" "blob:photo"))) as (_ & _ & A).
  split; [exact (proj1 (R _ F eq_refl eq_refl))|].
  split; [reflexivity|].
  exact (proj2 (A _ F eq_refl eq_refl) 1%nat cats eq_refl).
Defined.

End TextAndImage.

Section GenerateExtras.

Import ListArt.
Local Open Scope string_scope.
Local Open Scope Z_scope.

(** X17. When the image request gets an [ok] response with a readable
    body, then, whatever happened while it was pending, the promise
    resolves: no message is shown, no node is marked as generating, and
    each node with the target id gets as image the first result, or,
    when there is no result, the empty-result URL, which is another URL
    than the one used after a failure; other fields and nodes are
    kept. *)
Theorem generate_success (s : State) (targetNodeId : Z)
    (between : State -> State) (r : Response) (urls : list string) :
  ok r = true -> responseBody r = JsonResults urls ->
  let pending :=
    between (pictureSourceSelected s targetNodeId "Generate with AI") in
  let final := generateWithAI s targetNodeId between (FetchResponse r) in
  let url := hd emptyResultImage urls in
  alerts final = alerts pending
  /\ generatingImageForNode final = None
  /\ (forall (i : nat) (n : Node),
         nth_error (nodes pending) i = Some n ->
         nth_error (nodes final) i
         = Some (if id n =? targetNodeId
                 then mkNode (id n) (title n) (body n) url
                 else n))
  /\ emptyResultImage <> fallbackImage.
Proof.
  intros Hok Hbody pending final url. subst final url.
  unfold generateWithAI. fold pending.
  assert (E : generateImageForTitle (FetchResponse r)
              = inr (hd emptyResultImage urls)).
  { unfold generateImageForTitle. rewrite Hok, Hbody. cbn.
    now destruct urls. }
  rewrite E. cbn -[setImageOf].
  split; [reflexivity|]. split; [reflexivity|]. split.
  - intros i n Hn. rewrite nth_error_setImageOf, Hn. reflexivity.
  - discriminate.
Qed.

Lemma generate_success_witness :
  let r := mkResponse true 200 "OK" (JsonResults []) in
  let final := generateWithAI (initialState sample) 3 (fun st => st)
                 (FetchResponse r) in
  ok r = true /\ responseBody r = JsonResults []
  /\ alerts final = []
  /\ nth_error (nodes final) 2
     = Some (mkNode 3 "Birds" "Winged creatures" emptyResultImage).
Proof.
  intros r final.
  split; [reflexivity|]. split; [reflexivity|].
  destruct (@generate_success (initialState sample) 3 (fun st => st) r []
              eq_refl eq_refl) as (A & _ & N & _).
  split; [exact A|]. exact (N 2%nat birds eq_refl).
Defined.

(** X18. The component keeps one generating cell for all nodes: when a
    request for node [b] is started while one for another node [a] is
    pending, only [b] shows the loading overlay, and when the request
    for [a] settles, with any result, the overlay of [b] disappears
    although its request is still pending. *)
Theorem loading_overlay_shared (s : State) (a b : Z)
    (result : Thrown + string) :
  a <> b ->
  let both :=
    pictureSourceSelected
      (pictureSourceSelected s a "Generate with AI") b "Generate with AI"
  in
  showLoading both a = false /\ showLoading both b = true
  /\ showLoading (generateSettled both a result) b = false.
Proof.
  intros Hab both. subst both. unfold showLoading.
  split; [|split].
  - cbn. apply Z.eqb_neq. congruence.
  - cbn. apply Z.eqb_refl.
  - now destruct result.
Qed.

Lemma loading_overlay_shared_witness :
  1 <> 2
  /\ showLoading
       (generateSettled
          (pictureSourceSelected
             (pictureSourceSelected (initialState sample) 1
                "Generate with AI") 2 "Generate with AI")
          1 (inr "dogs2.png")) 2 = false.
Proof.
  assert (H : 1 <> 2) by discriminate.
  split; [exact H|].
  apply (@loading_overlay_shared (initialState sample) 1 2
           (inr "dogs2.png") H).
Defined.



End GenerateExtras.

(* ------------------------------------------------------------------ *)
(** * Further properties of the interaction state *)

Section Exclusions.

Import ListArt.
Local Open Scope string_scope.
Local Open Scope Z_scope.

Ltac state_simpl :=
  cbn [nodes hoveredNode pressedNode editingTitle editingBody
       containerActive containerHovered insertPictureMenuOpen buttonRect
       generatingImageForNode alerts setNodes setHoveredNode
       setPressedNode setEditingTitle setEditingBody setContainerActive
       setContainerHovered setInsertPictureMenuOpen setButtonRect
       setGeneratingImageForNode alert afterMove].

Ltac exclusive_done :=
  unfold Ui.exclusive in *; state_simpl; intuition congruence.

Lemma apply_keeps_exclusive (s s' : State) (op : Trace.Op) :
  Ui.exclusive s -> Trace.apply s op = Some s' -> Ui.exclusive s'.
Proof.
  intros Hx.
  destruct op as [position|nodeId|nodeId|nodeId|nodeId newTitle
                 |nodeId newBody|closureNodes nodeId file
                 |targetNodeId outcome]; cbn [Trace.apply].
  - intros [= <-]. unfold handleAddClick. exclusive_done.
  - intros [= <-]. unfold handleDeleteNode.
    destruct (Z.of_nat (length (nodes s)) <=? 1); exclusive_done.
  - intros [= <-]. unfold handleMoveLeft.
    destruct (indexOfId nodeId (nodes s)) as [i|]; [|exact Hx].
    destruct (0 <? i)%nat; exclusive_done.
  - unfold handleMoveRight.
    destruct (indexOfId nodeId (nodes s)) as [i|].
    + destruct (Z.of_nat i <? Z.of_nat (length (nodes s)) - 1);
        intros [= <-]; exclusive_done.
    + destruct (-1 <? Z.of_nat (length (nodes s)) - 1);
        [discriminate | intros [= <-]; exact Hx].
  - intros [= <-]. unfold handleTitleChange. exclusive_done.
  - intros [= <-]. unfold handleBodyChange. exclusive_done.
  - intros [= <-]. unfold handleFileSelection.
    destruct (findNode nodeId closureNodes); [|exact Hx].
    destruct file as [f|]; [|exact Hx].
    destruct (negb (String.prefix "image/" (fileType f))); exclusive_done.
  - intros [= <-]. unfold generateSettled.
    destruct (generateImageForTitle outcome); exclusive_done.
Qed.

Lemma dispatch_keeps_exclusive (s s' : State) (e : Ui.Event) :
  Ui.exclusive s -> Ui.dispatch s e = Some s' -> Ui.exclusive s'.
Proof.
  intros Hx.
  destruct e as [onEmptySpace| | |nodeId| |nodeId|nodeId|nodeId
                |nodeId rectB rectC| |target
                |closureNodes nodeId source|op]; cbn [Ui.dispatch];
    try (intros [= <-]).
  - destruct (mouseHandlersDisabled s); [exact Hx|].
    unfold handleContainerClick. destruct onEmptySpace; exclusive_done.
  - destruct (mouseHandlersDisabled s); exclusive_done.
  - destruct (mouseHandlersDisabled s); exclusive_done.
  - destruct (mouseHandlersDisabled s); exclusive_done.
  - destruct (mouseHandlersDisabled s); exclusive_done.
  - unfold handleNodeClick.
    destruct (isNode (pressedNode s) nodeId); exclusive_done.
  - unfold handleTitleClick. exclusive_done.
  - unfold handleBodyClick. exclusive_done.
  - unfold handleInsertPictureClick, insertPictureTimeout.
    destruct (negb (isNode (insertPictureMenuOpen s) nodeId));
      exclusive_done.
  - unfold backdropClick. exclusive_done.
  - unfold handleClickOutside.
    destruct (insertPictureMenuOpen s).
    + destruct (negb (isClickOnButton target)
                && negb (isClickOnMenu target)); exclusive_done.
    + destruct (outsideContainer target); exclusive_done.
  - unfold handlePictureSourceSelect, pictureSourceSelected.
    destruct (findNode nodeId closureNodes); [|exact Hx].
    destruct (String.eqb source "This Device"); [exclusive_done|].
    destruct (String.eqb source "Stock Images"); [exclusive_done|].
    destruct (String.eqb source "Generate with AI"); exclusive_done.
  - now apply apply_keeps_exclusive.
Qed.

Lemma run_keeps_exclusive (events : list Ui.Event) :
  forall s s' : State,
    Ui.exclusive s -> Ui.run events s = Some s' -> Ui.exclusive s'.
Proof.
  induction events as [|e events IH]; intros s s' Hx; cbn.
  - now intros [= <-].
  - destruct (Ui.dispatch s e) as [s1|] eqn:E; [|discriminate].
    apply IH. eapply dispatch_keeps_exclusive; eassumption.
Qed.

(** X20. In every state that the component reaches from its initial
    state, by any sequence of clicks, hovers, menu choices and
    mutations, the title and the body are not edited at the same time,
    and while the container is active no node is pressed and no text is
    edited. *)
Theorem exclusions_always_hold (initialNodes : list Node)
    (events : list Ui.Event) (s' : State) :
  Ui.run events (initialState initialNodes) = Some s' ->
  (editingTitle s' = None \/ editingBody s' = None)
  /\ (containerActive s' = true ->
      pressedNode s' = None /\ editingTitle s' = None
      /\ editingBody s' = None).
Proof.
  intros Hrun.
  apply (@run_keeps_exclusive events (initialState initialNodes) s');
    [|exact Hrun].
  unfold Ui.exclusive. cbn. intuition congruence.
Qed.

Lemma exclusions_always_hold_witness :
  let events := [Ui.TitleClick 1; Ui.BodyClick 2;
                 Ui.ContainerClick true; Ui.NodeClick 3] in
  exists s', Ui.run events (initialState sample) = Some s'
             /\ (editingTitle s' = None \/ editingBody s' = None).
Proof.
  intros events. eexists. split; [reflexivity|].
  apply (@exclusions_always_hold sample events _ eq_refl).
Defined.

End Exclusions.

Section AddButtons.

Import ListArt.
Local Open Scope Z_scope.

Lemma between_positions (n : nat) :
  map clickPosition
    (map (fun idx => mkAddButton (LeftPx (leftPos (Z.of_nat idx)))
                                 (Z.of_nat idx + 1))
         (seq 0 n))
  = map Z.of_nat (seq 1 n).
Proof.
  rewrite map_map. cbn [clickPosition].
  rewrite <- seq_shift, map_map. apply map_ext. intros k. lia.
Qed.

(** X21. While the container is hovered and no node is pressed, the add
    buttons of a sequence of [n >= 1] nodes offer every insertion
    position 0, 1, ..., n exactly once, from left to right; on the empty
    sequence the two edge buttons both insert at position 0; when the
    container is not hovered or a node is pressed no add button is
    rendered. *)
Theorem add_buttons_positions (s : State) :
  (containerHovered s = true -> pressedNode s = None ->
   nodes s <> [] ->
   map clickPosition (addButtons s)
   = map Z.of_nat (seq 0 (S (length (nodes s)))))
  /\ (containerHovered s = true -> pressedNode s = None ->
      nodes s = [] ->
      map clickPosition (addButtons s) = [0; 0])
  /\ (containerHovered s = false \/ pressedNode s <> None ->
      addButtons s = []).
Proof.
  unfold addButtons, leftEdgeButton, betweenButtons, rightEdgeButton.
  split; [|split].
  - intros -> -> Hne. cbn [isNone andb].
    remember (length (nodes s)) as n eqn:Hn.
    destruct n as [|m]; [destruct (nodes s); [now contradiction Hne
                                             | discriminate]|].
    destruct m as [|m].
    + reflexivity.
    + replace (1 <? Z.of_nat (S (S m))) with true
        by (symmetry; apply Z.ltb_lt; lia).
      rewrite !map_app, between_positions.
      replace (S (S m) - 1)%nat with (S m) by lia.
      cbn [map clickPosition app].
      change (0 :: map Z.of_nat (seq 1 (S m)) ++ [Z.of_nat (S (S m))])
        with (map Z.of_nat (seq 0 (S (S m))) ++ [Z.of_nat (S (S m))])%list.
      rewrite (seq_S (S (S m)) 0), map_app. reflexivity.
  - intros -> -> ->. reflexivity.
  - intros [-> | Hp]; [reflexivity|].
    destruct (pressedNode s); [|now contradiction Hp].
    now rewrite !andb_false_r.
Qed.

Lemma add_buttons_positions_witness :
  let s :=
    mkState sample None None None None false true None None None [] in
  containerHovered s = true /\ pressedNode s = None /\ nodes s <> []
  /\ map clickPosition (addButtons s) = [0; 1; 2; 3].
Proof.
  intros s. split; [reflexivity|]. split; [reflexivity|].
  assert (N : nodes s <> []) by discriminate.
  split; [exact N|].
  apply (proj1 (add_buttons_positions s) eq_refl eq_refl N).
Defined.

(** X22. After [handleAddClick], at whatever position, the new node is
    the pressed one and the one whose title is edited, its toolbar is
    shown, the container is not active, and no add button is rendered
    until the selection is cleared. *)
Theorem after_insert_selection (s : State) (position : Z) :
  let s' := handleAddClick s position in
  let new := newId (nodes s) in
  In (newNode (nodes s)) (nodes s')
  /\ pressedNode s' = Some new /\ editingTitle s' = Some new
  /\ editingBody s' = None /\ containerActive s' = false
  /\ showToolbar s' new = true
  /\ addButtons s' = [].
Proof.
  intros s' new. subst s' new. unfold handleAddClick.
  split.
  - cbn [nodes setNodes setPressedNode setEditingTitle setEditingBody
         setContainerActive].
    apply (Permutation_in _
             (Permutation_sym
                (splice_insert_perm (nodes s) position (newNode (nodes s))))).
    now left.
  - unfold showToolbar, addButtons, leftEdgeButton, betweenButtons,
      rightEdgeButton.
    cbn [nodes pressedNode editingTitle editingBody containerActive
         containerHovered setNodes setPressedNode setEditingTitle
         setEditingBody setContainerActive isNone isNode].
    rewrite Z.eqb_refl, !andb_false_r. cbn [andb app].
    repeat split.
Qed.

(** X23. A click on the insert-picture button of a node whose menu is
    not open opens the menu for that node, stores a rectangle for it
    (never null), marks the node as hovered, shows its overlay and
    clears the pressed node, both edit modes and the active container;
    a second click on the same button closes the menu, drops the
    rectangle and changes nothing else. *)
Theorem insert_picture_toggle (s : State) (nodeId : Z)
    (rectB rectC rectB' rectC' : option DOMRect) :
  insertPictureMenuOpen s <> Some nodeId ->
  let opened := handleInsertPictureClick s nodeId rectB rectC in
  let closed := handleInsertPictureClick opened nodeId rectB' rectC' in
  opened
  = mkState (nodes s) (Some nodeId) None None None false
      (containerHovered s) (Some nodeId)
      (Some (storedRect rectB rectC)) (generatingImageForNode s)
      (alerts s)
  /\ showInsertOverlay opened nodeId = true
  /\ mouseHandlersDisabled opened = true
  /\ closed
     = mkState (nodes s) (Some nodeId) None None None false
         (containerHovered s) None None (generatingImageForNode s)
         (alerts s).
Proof.
  intros Hclosed opened closed.
  assert (E : isNode (insertPictureMenuOpen s) nodeId = false).
  { unfold isNode. destruct (insertPictureMenuOpen s) as [m|];
      [|reflexivity].
    apply Z.eqb_neq. congruence. }
  assert (O : opened
              = mkState (nodes s) (Some nodeId) None None None false
                  (containerHovered s) (Some nodeId)
                  (Some (storedRect rectB rectC))
                  (generatingImageForNode s) (alerts s)).
  { subst opened. unfold handleInsertPictureClick. rewrite E. reflexivity. }
  split; [exact O|]. subst closed. rewrite O.
  unfold showInsertOverlay, mouseHandlersDisabled,
    handleInsertPictureClick.
  cbn [insertPictureMenuOpen hoveredNode pressedNode isNode isNone].
  rewrite Z.eqb_refl. cbn [negb andb orb]. repeat split.
Qed.

Lemma insert_picture_toggle_witness :
  let s := initialState sample in
  insertPictureMenuOpen s <> Some 2
  /\ insertPictureMenuOpen (handleInsertPictureClick s 2 None None)
     = Some 2
  /\ buttonRect (handleInsertPictureClick s 2 None None)
     = Some (mkDOMRect 0 0 0 0).
Proof.
  intros s.
  assert (H : insertPictureMenuOpen s <> Some 2) by discriminate.
  split; [exact H|].
  destruct (@insert_picture_toggle s 2 None None None None H) as (O & _).
  rewrite O. split; reflexivity.
Defined.

End AddButtons.
